(** * revolutionmacroguide: the cached GitHub client and the Troubleshooting filter

    A shallow embedding of [assets/js/api.js] (class [GitHubAPI]) and of the
    normalisation and filter code of [Pages.renderTroubleshooting] in
    [assets/js/pages.js], followed by the properties the specification
    states about them. *)

From Stdlib Require Import ZArith NArith Lia Ascii String.
From stdpp Require Import base option list gmap strings.

Local Open Scope Z_scope.

#[local] Set Warnings "-register-all".

(** ** JavaScript values *)

(** A JSON document as [JSON.parse] and [response.json()] produce it.
    Numbers are the integer ones: the client computes only with [Date.now()]
    readings and stored timestamps, which are millisecond counts. An object
    is the list of its own properties. *)
Inductive json :=
| JNull
| JBool (b : bool)
| JNum (n : Z)
| JStr (s : string)
| JArr (items : list json)
| JObj (fields : list (string * json)).

(** A JavaScript value of the client: [None] is [undefined]. *)
Abbreviation jsval := (option json).
Abbreviation undefined := (@None json).
Abbreviation null := (Some JNull).

(** ToBoolean: [if (v)], [!v], [a && b]. *)
Definition truthy (v : jsval) : bool :=
  match v with
  | None | Some JNull => false
  | Some (JBool b) => b
  | Some (JNum n) => negb (n =? 0)
  | Some (JStr s) => negb (String.eqb s "")
  | Some (JArr _) | Some (JObj _) => true
  end.

(** [typeof v === 'object']. *)
Definition typeof_object (v : json) : bool :=
  match v with
  | JNull | JArr _ | JObj _ => true
  | JBool _ | JNum _ | JStr _ => false
  end.

(** ** Exceptions *)

Inductive exn :=
| TypeError
| SyntaxError
| SecurityError
| QuotaExceededError
| NetworkError
| ApiError (status : Z).

(** A computation that returns or throws. *)
Inductive outcome (A : Type) :=
| Returned (a : A)
| Thrown (e : exn).
Arguments Returned {A} a.
Arguments Thrown {A} e.

#[global] Instance outcome_ret : MRet outcome := fun A a => Returned a.
#[global] Instance outcome_bind : MBind outcome := fun A B k c =>
  match c with
  | Returned a => k a
  | Thrown e => Thrown e
  end.

(** [try { body } catch (e) { handler }] *)
Definition try_catch {A} (body : outcome A) (handler : exn -> outcome A) : outcome A :=
  match body with
  | Returned a => Returned a
  | Thrown e => handler e
  end.

(** Own-property lookup in an object literal. *)
Fixpoint assoc (name : string) (fields : list (string * json)) : jsval :=
  match fields with
  | [] => undefined
  | (k, v) :: rest => if String.eqb k name then Some v else assoc name rest
  end.

(** [v.name]: a TypeError on [undefined] and [null], the property of an
    object, [undefined] on anything else ([data] and [timestamp] are not
    properties of arrays, strings, numbers or booleans). *)
Definition get (v : jsval) (name : string) : outcome jsval :=
  match v with
  | None | Some JNull => Thrown TypeError
  | Some (JObj fields) => Returned (assoc name fields)
  | Some _ => Returned undefined
  end.

(** ** The plain object [this.cache] *)

(** An array index written as a property key: [0], or digits that do not
    start with [0]. *)
Fixpoint digits_value (s : string) (acc : N) : option N :=
  match s with
  | EmptyString => Some acc
  | String c rest =>
      let n := N_of_ascii c in
      if ((48 <=? n) && (n <=? 57))%N
      then digits_value rest (10 * acc + (n - 48))%N
      else None
  end.

Definition array_index (key : string) : option nat :=
  match key with
  | EmptyString => None
  | String c rest =>
      if Ascii.eqb c "0" && negb (String.eqb rest "") then None
      else option_map N.to_nat (digits_value key 0%N)
  end.

(** The own property [key] of an object or an array. *)
Definition own_property (v : json) (key : string) : jsval :=
  match v with
  | JObj fields => assoc key fields
  | JArr items =>
      match array_index key with
      | Some i => items !! i
      | None => if String.eqb key "length"
                then Some (JNum (Z.of_nat (length items)))
                else undefined
      end
  | _ => undefined
  end.

(** [this.cache = {}] is a plain object: own properties and a prototype.
    The prototype is [Object.prototype] until an assignment at the key
    [__proto__] reaches the setter that [Object.prototype] has for that key;
    the setter makes the assigned object (or [null]) the prototype and
    ignores any other value. *)
Inductive prototype :=
| Object_prototype
| Null_prototype
| Parent (p : json).

Record plain_object := {
  own : gmap string json;
  proto : prototype
}.

(** [o[key]]: the own property, else the property of the prototype, else
    the prototype itself at the key [__proto__]. What [Object.prototype]
    and [Array.prototype] add (functions such as [constructor], and
    [Object.prototype] itself at [__proto__]) has neither a [timestamp] nor
    [data]: step 1 of [fetchJson] passes it over as it passes over
    [undefined], and it reads as [undefined] here. *)
Definition object_get (o : plain_object) (key : string) : jsval :=
  match own o !! key with
  | Some v => Some v
  | None =>
      match proto o with
      | Parent p =>
          match own_property p key with
          | Some v => Some v
          | None => if String.eqb key "__proto__" then Some p else undefined
          end
      | Object_prototype | Null_prototype => undefined
      end
  end.

Definition define_own (o : plain_object) (key : string) (v : json) : plain_object :=
  {| own := <[key := v]> (own o); proto := proto o |}.

Definition set_prototype (o : plain_object) (v : json) : plain_object :=
  match v with
  | JObj _ | JArr _ => {| own := own o; proto := Parent v |}
  | JNull => {| own := own o; proto := Null_prototype |}
  | JBool _ | JNum _ | JStr _ => o
  end.

(** [o[key] = v]: an own property is overwritten; a data property found on
    the prototype is shadowed by a new own property; the key [__proto__]
    that reaches the setter of [Object.prototype] sets the prototype; any
    other key becomes an own property. *)
Definition object_set (o : plain_object) (key : string) (v : json) : plain_object :=
  match own o !! key with
  | Some _ => define_own o key v
  | None =>
      match proto o with
      | Parent p =>
          match own_property p key with
          | Some _ => define_own o key v
          | None => if String.eqb key "__proto__" then set_prototype o v
                    else define_own o key v
          end
      | Object_prototype =>
          if String.eqb key "__proto__" then set_prototype o v else define_own o key v
      | Null_prototype => define_own o key v
      end
  end.

#[global] Instance plain_object_lookup : Lookup string json plain_object :=
  fun key o => object_get o key.
#[global] Instance plain_object_insert : Insert string json plain_object :=
  fun key v o => object_set o key v.
#[global] Instance plain_object_empty : Empty plain_object :=
  {| own := ∅; proto := Object_prototype |}.
#[global] Instance plain_object_singleton : SingletonM string json plain_object :=
  fun key v => object_set ∅ key v.

(** ** Numbers *)

(** The host's [ToNumber] on strings and, through [ToPrimitive], on arrays
    and objects. It follows the numeric-literal grammar of ECMAScript; the
    client itself only ever stores numbers as timestamps, so it stays an
    interface here. [None] is [NaN]. *)
Class Host := { ToNumber_text : json -> option Z }.

Definition ToNumber `{Host} (v : jsval) : option Z :=
  match v with
  | None => None
  | Some JNull => Some 0
  | Some (JBool b) => Some (if b then 1 else 0)
  | Some (JNum n) => Some n
  | Some other => ToNumber_text other
  end.

(** [a - b] and [a < b] on numbers: [NaN] is contagious and compares false. *)
Definition num_sub (a b : option Z) : option Z :=
  match a, b with
  | Some x, Some y => Some (x - y)
  | _, _ => None
  end.

Definition num_lt (a b : option Z) : bool :=
  match a, b with
  | Some x, Some y => x <? y
  | _, _ => false
  end.

(** ** The world a call runs in *)

(** A string held by [localStorage], as lines 55-56 of [api.js] see it: the
    empty string, a text on which [JSON.parse] throws, or the JSON text of a
    document. [JSON.stringify] followed by [JSON.parse] gives the document
    back. *)
Inductive stored :=
| Empty
| Malformed
| Text (doc : json).

(** What [fetch] does: it rejects, or it resolves to a response with a
    status and a body that [response.json()] parses or not. *)
Inductive fetched :=
| Rejected
| Responded (status : Z) (body : option json).

(** Everything outside the client that one call of [fetchJson] observes:
    the four places where it reads the clock, whether [localStorage] can be
    read and written, and the answer of the network. *)
Record world := {
  now_memory : Z;
  now_local : Z;
  now_payload : Z;
  now_persist : Z;
  storage_readable : bool;
  storage_writable : bool;
  network : fetched
}.

(** The two cache tiers: the [this.cache] object and [localStorage]. *)
Record state := {
  cache : plain_object;
  storage : gmap string stored
}.

(** What a call gives back: the value it resolves to, the state it leaves,
    and the requests it put on the network. *)
Record reply := {
  value : jsval;
  after : state;
  requests : list string
}.

(** ** class GitHubAPI *)

Definition cacheTime : Z := 10 * 60 * 1000.

Definition lsPrefix : string := "revo_cache_v1::".

Definition lsKey (url : string) : string := lsPrefix +:+ url.

Definition getItem (w : world) (ls : gmap string stored) (key : string)
  : outcome (option stored) :=
  if storage_readable w then Returned (ls !! key) else Thrown SecurityError.

Definition setItem (w : world) (ls : gmap string stored) (key : string) (text : stored)
  : outcome (gmap string stored) :=
  if storage_writable w then Returned (<[key := text]> ls) else Thrown QuotaExceededError.

Definition JSON_parse (raw : stored) : outcome json :=
  match raw with
  | Text doc => Returned doc
  | Empty | Malformed => Thrown SyntaxError
  end.

Definition readLocalCache (w : world) (ls : gmap string stored) (url : string)
  : outcome json :=
  try_catch
    (raw ← getItem w ls (lsKey url);
     match raw with
     | None | Some Empty => Returned JNull
     | Some text =>
         parsed ← JSON_parse text;
         if negb (truthy (Some parsed)) || negb (typeof_object parsed)
         then Returned JNull
         else Returned parsed
     end)
    (fun _ => Returned JNull).

(** [{ data, timestamp: Date.now() }] *)
Definition payload (data : json) (now : Z) : json :=
  JObj [("data"%string, data); ("timestamp"%string, JNum now)].

Definition writeLocalCache (w : world) (ls : gmap string stored) (url : string) (data : json)
  : outcome (gmap string stored) :=
  try_catch
    (setItem w ls (lsKey url) (Text (payload data (now_persist w))))
    (fun _ => Returned ls).

(** [Date.now() - entry.timestamp < this.cacheTime] *)
Definition fresh `{Host} (now : Z) (entry : jsval) : outcome bool :=
  timestamp ← get entry "timestamp";
  Returned (num_lt (num_sub (Some now) (ToNumber timestamp)) (Some cacheTime)).

(** [entry && Date.now() - entry.timestamp < this.cacheTime] *)
Definition present_and_fresh `{Host} (now : Z) (entry : jsval) : outcome bool :=
  if truthy entry then fresh now entry else Returned false.

Definition response_ok (status : Z) : bool := (200 <=? status) && (status <=? 299).

(** The [try] block of [fetchJson], lines 101-120. *)
Definition request (st : state) (w : world) (url : string) (useCache : bool)
  : outcome reply :=
  match network w with
  | Rejected => Thrown NetworkError
  | Responded status body =>
      if negb (response_ok status) then Thrown (ApiError status)
      else
        data ← (match body with
                | Some doc => Returned doc
                | None => Thrown SyntaxError
                end);
        if useCache then
          let memory := <[url := payload data (now_payload w)]> (cache st) in
          ls ← writeLocalCache w (storage st) url data;
          Returned {| value := Some data;
                      after := {| cache := memory; storage := ls |};
                      requests := [url] |}
        else
          Returned {| value := Some data; after := st; requests := [url] |}
  end.

(** The [catch] block, lines 121-130; [local] is what step 2 left. *)
Definition fallback (st : state) (url : string) (useCache : bool) (local : json)
  : outcome reply :=
  if useCache && truthy (Some local) then
    data ← get (Some local) "data";
    if truthy data
    then Returned {| value := data; after := st; requests := [url] |}
    else Returned {| value := null; after := st; requests := [url] |}
  else
    Returned {| value := null; after := st; requests := [url] |}.

Definition fetchJson `{Host} (st : state) (w : world) (url : string) (useCache : bool)
  : outcome reply :=
  let cacheKey := url in
  let cached := cache st !! cacheKey in
  hit ← (if useCache then present_and_fresh (now_memory w) cached else Returned false);
  if hit : bool then
    data ← get cached "data";
    Returned {| value := data; after := st; requests := [] |}
  else
    local ← (if useCache then readLocalCache w (storage st) url else Returned JNull);
    hit ← (if useCache then present_and_fresh (now_local w) (Some local) else Returned false);
    if hit : bool then
      data ← get (Some local) "data";
      Returned {| value := data;
                  after := {| cache := <[cacheKey := local]> (cache st);
                              storage := storage st |};
                  requests := [] |}
    else
      try_catch (request st w url useCache)
                (fun error => fallback st url useCache local).

(** A sequence of calls on one client, each in the world it finds; the
    replies come back in order. *)
Record call := {
  call_world : world;
  call_url : string;
  call_useCache : bool
}.

Fixpoint run `{Host} (st : state) (calls : list call) : outcome (list reply) :=
  match calls with
  | [] => Returned []
  | c :: rest =>
      r ← fetchJson st (call_world c) (call_url c) (call_useCache c);
      rs ← run (after r) rest;
      Returned (r :: rs)
  end.

(** The state a client is in after a sequence of replies. *)
Definition state_after (st : state) (replies : list reply) : state :=
  foldl (fun _ r => after r) st replies.

(** [new GitHubAPI()]: an empty [this.cache], whatever [localStorage] holds. *)
Definition new_GitHubAPI (ls : gmap string stored) : state :=
  {| cache := ∅; storage := ls |}.

(** ** Reading a cache entry and a response *)

(** [entry.timestamp] as a number and [entry.data], for an entry that is not
    [null]. *)
Definition timestamp_of `{Host} (entry : json) : option Z :=
  match entry with
  | JObj fields => ToNumber (assoc "timestamp" fields)
  | _ => None
  end.

Definition data_of (entry : json) : jsval :=
  match entry with
  | JObj fields => assoc "data" fields
  | _ => undefined
  end.

(** [now - entry.timestamp < cacheTime] *)
Definition is_fresh `{Host} (now : Z) (entry : json) : bool :=
  match timestamp_of entry with
  | Some t => now - t <? cacheTime
  | None => false
  end.

(** The test of step 1 on [this.cache[url]]. *)
Definition memory_fresh `{Host} (w : world) (st : state) (url : string) : bool :=
  match cache st !! url with
  | Some cached => is_fresh (now_memory w) cached
  | None => false
  end.

(** The document of a 2xx response whose body parses; [None] when [fetch]
    rejects, the status is not 2xx or the body is not JSON. *)
Definition network_data (w : world) : option json :=
  match network w with
  | Responded status (Some doc) => if response_ok status then Some doc else None
  | _ => None
  end.



(** The call for [key] stored a fresh network response in the cache. *)
Definition network_write (c : call) (r : reply) (key : string) : Prop :=
  call_url c = key /\ call_useCache c = true /\
  requests r = [key] /\ is_Some (network_data (call_world c)).

(** The clock does not run backwards between step 1 and step 2 of a call. *)
Definition steady_clock (c : call) : Prop :=
  now_memory (call_world c) <= now_local (call_world c).

(** [getReleasesUrl] and [getReleases], lines 29-31 and 137-140. *)
Definition baseUrl : string := "https://api.github.com".

Definition getReleasesUrl (owner repo : string) : string :=
  baseUrl +:+ "/repos/" +:+ owner +:+ "/" +:+ repo +:+ "/releases?per_page=10".

Definition getReleases `{Host} (st : state) (w : world) : outcome reply :=
  let url := getReleasesUrl "nosyliam" "revolution-macro" in
  fetchJson st w url true.

(** ** Sample data *)

(** A host in which a string, an array or an object is not a number. The
    samples hold numbers as timestamps, so they never ask. *)
Definition plain_host : Host := {| ToNumber_text := fun _ => None |}.

(** A world whose clock stands at [t], with a working [localStorage]. *)
Definition at_time (t : Z) (net : fetched) : world :=
  {| now_memory := t; now_local := t; now_payload := t; now_persist := t;
     storage_readable := true; storage_writable := true; network := net |}.

Definition releases_url : string := getReleasesUrl "nosyliam" "revolution-macro".

Definition releases_doc : json :=
  JArr [JObj [("tag_name"%string, JStr "v1.0.0")]].

(** [localStorage] holding the releases, stored at time [t]. *)
Definition stored_releases (t : Z) : gmap string stored :=
  {[ lsKey releases_url := Text (payload releases_doc t) ]}.

Definition releases_call (w : world) : call :=
  {| call_world := w; call_url := releases_url; call_useCache := true |}.

(** A client on a page that finds [localStorage] empty. *)
Definition first_visit : state := new_GitHubAPI ∅.

(** The reply to the first request for the releases at time 1000, and a
    client that holds that entry while [localStorage] holds a newer one. *)
Definition first_reply : reply :=
  {| value := Some releases_doc;
     after := {| cache := {[ releases_url := payload releases_doc 1000 ]};
                 storage := stored_releases 1000 |};
     requests := [releases_url] |}.

Definition aged_client : state :=
  {| cache := {[ releases_url := payload releases_doc 1000 ]};
     storage := stored_releases 650000 |}.


(** ** Strings *)

Local Open Scope string_scope.

(** [String.prototype.toLowerCase] on ASCII text: the letters A-Z move to
    a-z, every other byte stays. On other text the built-in follows the
    Unicode case mappings, which can depend on the neighbouring characters;
    that part is not modelled, and the properties stated for every text use
    nothing of this function but that it keeps a text empty or non-empty. *)
Definition lower_char (c : ascii) : ascii :=
  let n := N_of_ascii c in
  if ((65 <=? n) && (n <=? 90))%N then ascii_of_N (n + 32) else c.

Fixpoint toLowerCase (s : string) : string :=
  match s with
  | EmptyString => EmptyString
  | String c rest => String (lower_char c) (toLowerCase rest)
  end.

(** [s.startsWith(q)] and [s.includes(q)]. *)
Fixpoint starts_with (s q : string) : bool :=
  match q, s with
  | EmptyString, _ => true
  | String _ _, EmptyString => false
  | String b q', String a s' => Ascii.eqb a b && starts_with s' q'
  end.

Fixpoint String_includes (s q : string) : bool :=
  starts_with s q ||
  match s with
  | EmptyString => false
  | String _ rest => String_includes rest q
  end.

(** [labels.includes(x)] on an array of strings. *)
Definition Array_includes (labels : list string) (x : string) : bool :=
  existsb (String.eqb x) labels.

(** ** Pages.renderTroubleshooting *)

(** The fields of a GitHub issue that the page reads. [None] is a field that
    is absent or [null]; [pull_request] is the marker object of a pull
    request. *)
Module Label.
Record t := { name : option string }.
End Label.

Module Issue.
Record t := {
  id : Z;
  number : Z;
  title : option string;
  body : option string;
  html_url : string;
  labels : option (list Label.t);
  pull_request : jsval
}.
End Issue.

(** The object literal of lines 315-323. *)
Module Fix.
Record t := {
  id : Z;
  number : Z;
  title : string;
  body : string;
  html_url : string;
  labels : list string;
  category : string
}.
End Fix.

(** [x || ""] *)
Definition or_empty (x : option string) : string := default "" x.

(** Lines 309-313. *)
Definition category_of (labels : list string) : string :=
  let cat := "macro" in
  if Array_includes labels "windows" then "windows"
  else if Array_includes labels "macos" || Array_includes labels "mac" then "macos"
  else if Array_includes labels "pro" then "pro"
  else if Array_includes labels "macro" then "macro"
  else cat.

(** The callback of [.map], lines 302-324. *)
Definition normalize (i : Issue.t) : Fix.t :=
  let title := or_empty (Issue.title i) in
  let body := or_empty (Issue.body i) in
  let labels :=
    map (fun l => toLowerCase (or_empty (Label.name l))) (default [] (Issue.labels i)) in
  {| Fix.id := Issue.id i;
     Fix.number := Issue.number i;
     Fix.title := title;
     Fix.body := body;
     Fix.html_url := Issue.html_url i;
     Fix.labels := labels;
     Fix.category := category_of labels |}.

(** Lines 300-324: pull requests are skipped, then every issue is mapped. *)
Definition normalized (issues : list Issue.t) : list Fix.t :=
  map normalize (List.filter (fun i => negb (truthy (Issue.pull_request i))) issues).

(** Lines 326-337, with the [activeCat] and [query] the closure captures. *)
Definition matches (activeCat query : string) (item : Fix.t) : bool :=
  let inCat :=
    if String.eqb activeCat "all" then true
    else String.eqb (Fix.category item) activeCat in
  if negb inCat then false
  else if String.eqb query "" then true
  else
    let q := toLowerCase query in
    String_includes (toLowerCase (Fix.title item)) q
    || String_includes (toLowerCase (Fix.body item)) q
    || existsb (fun l => String_includes l q) (Fix.labels item).

(** The first line of [renderItems]: the records that are shown. *)
Definition renderItems (records : list Fix.t) (activeCat query : string) : list Fix.t :=
  List.filter (matches activeCat query) records.

(** [q] occurs in [s]. *)
Definition substring (q s : string) : Prop :=
  exists before behind, s = before +:+ q +:+ behind.

(** The two records of the specification's filter example, and one that
    carries both [pro] and [windows]. *)
Definition issue (title : string) (labels : list string) : Issue.t :=
  {| Issue.id := 0; Issue.number := 0;
     Issue.title := Some title; Issue.body := None; Issue.html_url := "";
     Issue.labels := Some (map (fun l => {| Label.name := Some l |}) labels);
     Issue.pull_request := undefined |}.

Definition crash_on_login : Issue.t := issue "Crash on login" ["windows"; "approved"].
Definition mic_not_detected : Issue.t := issue "Mic not detected" ["macos"].
Definition pro_and_windows : Issue.t := issue "Licence key" ["pro"; "windows"].

(** ** The rest of class GitHubAPI *)

(** [encodeURIComponent] on a string given by its UTF-8 bytes: the letters,
    the digits and [- _ . ! ~ * ' ( )] stay, every other byte becomes [%XX]
    with upper-case hexadecimal digits. *)
Definition unreserved (c : ascii) : bool :=
  let n := N_of_ascii c in
  (((65 <=? n) && (n <=? 90)) || ((97 <=? n) && (n <=? 122)) || ((48 <=? n) && (n <=? 57))
   || (n =? 45) || (n =? 95) || (n =? 46) || (n =? 33) || (n =? 126)
   || (n =? 42) || (n =? 39) || (n =? 40) || (n =? 41))%N.

Definition hex_digit (n : N) : ascii :=
  if (n <? 10)%N then ascii_of_N (48 + n) else ascii_of_N (55 + n).

Definition percent_encode (c : ascii) : string :=
  let n := N_of_ascii c in
  String "%" (String (hex_digit (n / 16)) (String (hex_digit (n mod 16)) EmptyString)).

Fixpoint encodeURIComponent (s : string) : string :=
  match s with
  | EmptyString => EmptyString
  | String c rest =>
      (if unreserved c then String c EmptyString else percent_encode c)
      +:+ encodeURIComponent rest
  end.

(** Lines 33-42 and 152-159. *)
Definition getTroubleshootingIssuesUrl (owner repo labels : string) : string :=
  baseUrl +:+ "/repos/" +:+ owner +:+ "/" +:+ repo
  +:+ "/issues?labels=" +:+ encodeURIComponent labels +:+ "&per_page=50".

Definition getTroubleshootingIssues `{Host} (st : state) (w : world) (labels : string)
  : outcome reply :=
  let url := getTroubleshootingIssuesUrl "RevolutionGuides" "revolutionmacroguide" labels in
  fetchJson st w url true.

(** The characters of a string, and the first character that
    [encodeURIComponent] wrote, read back. *)
Definition chars (s : string) : list ascii := list_ascii_of_string s.

Definition hex_value (c : ascii) : N :=
  let n := N_of_ascii c in
  if (n <? 58)%N then (n - 48)%N else (n - 55)%N.

Definition percent_decode_head (s : string) : option (ascii * string) :=
  match s with
  | EmptyString => None
  | String c rest =>
      if Ascii.eqb c "%" then
        match rest with
        | String x (String y rest') =>
            Some (ascii_of_N (16 * hex_value x + hex_value y), rest')
        | _ => None
        end
      else Some (c, rest)
  end.

(** ** The rest of class Pages *)

(** [s.replace(/c/g, by)] for a pattern of one character. *)
Fixpoint replace_all (c : ascii) (by_ : string) (s : string) : string :=
  match s with
  | EmptyString => EmptyString
  | String a rest =>
      (if Ascii.eqb a c then by_ else String a EmptyString) +:+ replace_all c by_ rest
  end.

Definition double_quote : ascii := "034"%char.

(** Lines 60-67, the five replacements in their order. *)
Definition escapeHtml (text : string) : string :=
  replace_all "'" "&#39;"
    (replace_all double_quote "&quot;"
       (replace_all ">" "&gt;"
          (replace_all "<" "&lt;"
             (replace_all "&" "&amp;" text)))).

(** What [escapeHtml] makes of one character, and the first character of
    an escaped text, read back. *)
Definition escape_char (c : ascii) : string :=
  if Ascii.eqb c "&" then "&amp;"
  else if Ascii.eqb c "<" then "&lt;"
  else if Ascii.eqb c ">" then "&gt;"
  else if Ascii.eqb c double_quote then "&quot;"
  else if Ascii.eqb c "'" then "&#39;"
  else String c EmptyString.

Definition markup (c : ascii) : bool :=
  Ascii.eqb c "&" || Ascii.eqb c "<" || Ascii.eqb c ">"
  || Ascii.eqb c double_quote || Ascii.eqb c "'".

Definition unescape_head (s : string) : option (ascii * string) :=
  match s with
  | EmptyString => None
  | String c rest =>
      if Ascii.eqb c "&" then
        match rest with
        | String "a" (String "m" (String "p" (String ";" r))) => Some ("&"%char, r)
        | String "l" (String "t" (String ";" r)) => Some ("<"%char, r)
        | String "g" (String "t" (String ";" r)) => Some (">"%char, r)
        | String "q" (String "u" (String "o" (String "t" (String ";" r)))) =>
            Some (double_quote, r)
        | String "#" (String "3" (String "9" (String ";" r))) => Some ("'"%char, r)
        | _ => None
        end
      else Some (c, rest)
  end.

(** [sessionStorage]: a map from keys to strings that a call can or cannot
    reach. *)
Definition pendingScrollIdKey : string := "__revo_pending_scroll_id".

Definition session_setItem (reachable : bool) (ss : gmap string string) (key text : string)
  : outcome (gmap string string) :=
  if reachable then Returned (<[key := text]> ss) else Thrown SecurityError.

Definition session_getItem (reachable : bool) (ss : gmap string string) (key : string)
  : outcome (option string) :=
  if reachable then Returned (ss !! key) else Thrown SecurityError.

Definition session_removeItem (reachable : bool) (ss : gmap string string) (key : string)
  : outcome (gmap string string) :=
  if reachable then Returned (delete key ss) else Thrown SecurityError.

(** Lines 12-16: the storage after the call. *)
Definition setPendingScrollId (reachable : bool) (ss : gmap string string) (id : string)
  : outcome (gmap string string) :=
  try_catch (session_setItem reachable ss pendingScrollIdKey id)
            (fun _ => Returned ss).

(** [if (id)] on what [getItem] gave. *)
Definition nonempty (id : option string) : bool :=
  match id with
  | Some s => negb (String.eqb s "")
  | None => false
  end.

(** Lines 18-26: the id or [None] for [null], and the storage after the
    call. *)
Definition consumePendingScrollId (reachable : bool) (ss : gmap string string)
  : outcome (option string * gmap string string) :=
  try_catch
    (id ← session_getItem reachable ss pendingScrollIdKey;
     ss' ← (if nonempty id then session_removeItem reachable ss pendingScrollIdKey
            else Returned ss);
     Returned (if nonempty id then id else None, ss'))
    (fun _ => Returned (None, ss)).

(** The part of the browser that the quick jump touches: the location hash,
    [sessionStorage] and whether it can be reached, the ids of the elements
    of the document, and the elements scrolled to so far. *)
Record browser := {
  location_hash : string;
  session : gmap string string;
  session_reachable : bool;
  element_ids : list string;
  scrolled_to : list string
}.

(** Lines 34-45: [true] when the element is there and is scrolled to. *)
Definition scrollToId (b : browser) (id : string) : bool * browser :=
  if Array_includes (element_ids b) id
  then (true, {| location_hash := location_hash b; session := session b;
                 session_reachable := session_reachable b;
                 element_ids := element_ids b;
                 scrolled_to := (scrolled_to b ++ [id])%list |})
  else (false, b).

(** Lines 47-58. *)
Definition goToGuideAndScroll (b : browser) (id : string) : outcome browser :=
  let hash := if String.eqb (location_hash b) "" then "#/guide" else location_hash b in
  if starts_with hash "#/guide" || String.eqb hash "#/" || String.eqb hash "#" then
    Returned (snd (scrollToId b id))
  else
    ss ← setPendingScrollId (session_reachable b) (session b) id;
    Returned {| location_hash := "#/guide"; session := ss;
                session_reachable := session_reachable b;
                element_ids := element_ids b;
                scrolled_to := scrolled_to b |}.

(** Lines 157-164, the end of [renderGuide]: a pending id is consumed and
    scrolled to (by the timer these lines set). *)
Definition renderGuide_pending (b : browser) : outcome browser :=
  r ← consumePendingScrollId (session_reachable b) (session b);
  let b' := {| location_hash := location_hash b; session := snd r;
               session_reachable := session_reachable b;
               element_ids := element_ids b;
               scrolled_to := scrolled_to b |} in
  match fst r with
  | Some pending => Returned (snd (scrollToId b' pending))
  | None => Returned b'
  end.

(** Lines 339-344. *)
Definition pillForCat (cat : string) : string :=
  if String.eqb cat "windows" then "Windows"
  else if String.eqb cat "macos" then "macOS"
  else if String.eqb cat "pro" then "Pro"
  else "Macro".

(** The categories of the filter chips, lines 277-280. *)
Definition chips : list string := ["windows"; "macos"; "macro"; "pro"].

(** A section of [data/guide-sections.json] and a quick-jump button of the
    drawer: what lines 173-185 put into [data-jump-id], [guide-index] and
    [guide-text]. *)
Module GuideSection.
Record t := { id : string; file : string; titleEn : option string }.
End GuideSection.

Module JumpButton.
Record t := { jump_id : string; index : nat; text : string }.
End JumpButton.

(** Lines 173-185: the buttons that [renderDrawerGuideNav] writes into the
    drawer, when the drawer is there. *)
Definition quickJump (sections : list GuideSection.t) : list JumpButton.t :=
  let quick := take 6 sections in
  imap (fun idx s =>
          let title := if nonempty (GuideSection.titleEn s)
                       then or_empty (GuideSection.titleEn s)
                       else GuideSection.id s in
          {| JumpButton.jump_id := escapeHtml (GuideSection.id s);
             JumpButton.index := (idx + 1)%nat;
             JumpButton.text := escapeHtml title |})
       quick.

(** What the drawer holds after [renderDrawerGuideNav], lines 167-196: a
    quick-jump button or the Top button that line 188 adds at the end. *)
Inductive drawer_item :=
| JumpTo (button : JumpButton.t)
| JumpTop.

(** Lines 167-196. Without an element [drawerGuideNav] in the document the
    function returns at once and builds nothing ([None]). *)
Definition renderDrawerGuideNav (element_ids : list string) (sections : list GuideSection.t)
  : option (list drawer_item) :=
  if negb (Array_includes element_ids "drawerGuideNav") then None
  else Some (map JumpTo (quickJump sections) ++ [JumpTop])%list.

(** ** More sample data *)

Definition empty_session : gmap string string := ∅.

(** A tab on another route and a tab on the guide; the document has the
    sections [install] and [faq]. *)
Definition changelog_tab : browser :=
  {| location_hash := "#/changelog"; session := empty_session;
     session_reachable := true; element_ids := ["install"; "faq"];
     scrolled_to := [] |}.

Definition guide_tab : browser :=
  {| location_hash := "#/guide"; session := empty_session;
     session_reachable := true; element_ids := ["install"; "faq"];
     scrolled_to := [] |}.

Definition guide_sections : list GuideSection.t :=
  [ {| GuideSection.id := "install"; GuideSection.file := "guide/install.md";
       GuideSection.titleEn := Some "Install" |};
    {| GuideSection.id := "faq"; GuideSection.file := "guide/faq.md";
       GuideSection.titleEn := None |} ].

Definition faq_button : JumpButton.t :=
  {| JumpButton.jump_id := "faq"; JumpButton.index := 2; JumpButton.text := "faq" |}.

Definition sample_records : list Fix.t := normalized [crash_on_login; mic_not_detected].

Definition issues_url : string :=
  getTroubleshootingIssuesUrl "RevolutionGuides" "revolutionmacroguide" "approved,windows".

(** The reply to a call for the issues that finds nothing cached and the
    network down, and the reply that falls back on the stored releases. *)
Definition issues_down : reply :=
  {| value := null; after := first_visit; requests := [issues_url] |}.

Definition releases_fallback : reply :=
  {| value := Some releases_doc;
     after := new_GitHubAPI (stored_releases 1000);
     requests := [releases_url] |}.

(** ** Sample data for the clock and for the prototype *)

(** A client whose entry for the releases was written at 700000 while
    [localStorage] holds the entry of time 1000, and a call whose clock
    reads 1400000 at the first cache test and 2000 at the second. *)
Definition late_client : state :=
  {| cache := {[ releases_url := payload releases_doc 700000 ]};
     storage := stored_releases 1000 |}.

Definition clock_back : world :=
  {| now_memory := 1400000; now_local := 2000; now_payload := 2000; now_persist := 2000;
     storage_readable := true; storage_writable := true; network := Rejected |}.

(** A document that has a timestamp and no data; a call for the url
    [__proto__] that the network answers with a document; a call for the
    url [data] that finds the network down; the client after the first of
    them. *)
Definition stamped (t : Z) : json := JObj [("timestamp", JNum t)].

Definition proto_call (now : Z) (doc : json) : call :=
  {| call_world := at_time now (Responded 200 (Some doc));
     call_url := "__proto__"; call_useCache := true |}.



(** The state that a sequence of calls leaves. *)
Definition run_state `{Host} (st : state) (calls : list call) : state :=
  match run st calls with
  | Returned replies => state_after st replies
  | Thrown _ => st
  end.

(** * Properties of the client *)

Section Client.
Context `{Host}.

Local Open Scope Z_scope.

Lemma bind_Returned {A B} (a : A) (k : A -> outcome B) : (Returned a ≫= k) = k a.
Proof. reflexivity. Qed.


Lemma cache_insert_own (o : plain_object) key v :
  key <> "__proto__"%string -> <[key := v]> o = define_own o key v.
Proof.
  intros Hne%String.eqb_neq. change (object_set o key v = define_own o key v).
  unfold object_set. rewrite Hne. destruct (own o !! key); [reflexivity|].
  destruct (proto o) as [ | | p]; try reflexivity.
  destruct (own_property p key); reflexivity.
Qed.

Lemma cache_lookup_define_eq (o : plain_object) key v : define_own o key v !! key = Some v.
Proof.
  change (object_get (define_own o key v) key = Some v).
  unfold object_get, define_own. simpl. rewrite lookup_insert_eq. reflexivity.
Qed.

Lemma cache_lookup_define_ne (o : plain_object) key key' v :
  key <> key' -> define_own o key v !! key' = o !! key'.
Proof.
  intros Hne. change (object_get (define_own o key v) key' = object_get o key').
  unfold object_get, define_own. simpl. rewrite lookup_insert_ne by exact Hne. reflexivity.
Qed.

Lemma cache_lookup_insert_eq (o : plain_object) key v :
  key <> "__proto__"%string -> <[key := v]> o !! key = Some v.
Proof. intros Hne. rewrite cache_insert_own by exact Hne. apply cache_lookup_define_eq. Qed.

Lemma cache_lookup_insert_ne (o : plain_object) key key' v :
  key <> "__proto__"%string -> key <> key' -> <[key := v]> o !! key' = o !! key'.
Proof.
  intros Hne Hne'. rewrite cache_insert_own by exact Hne.
  apply cache_lookup_define_ne. exact Hne'.
Qed.

(** An entry that the client builds is read back at its key, whatever the
    key. *)
Lemma cache_lookup_insert_payload (o : plain_object) key data now :
  <[key := payload data now]> o !! key = Some (payload data now).
Proof.
  destruct (String.eqb_spec key "__proto__") as [-> | Hne];
    [|apply cache_lookup_insert_eq; exact Hne].
  change (object_set o "__proto__" (payload data now) !! "__proto__"%string
          = Some (payload data now)).
  unfold object_set.
  destruct (own o !! "__proto__"%string) as [v|] eqn:Hown;
    [apply cache_lookup_define_eq|].
  assert (Hset : set_prototype o (payload data now) !! "__proto__"%string
                 = Some (payload data now)).
  { change (object_get (set_prototype o (payload data now)) "__proto__"
            = Some (payload data now)).
    unfold object_get. simpl. rewrite Hown. reflexivity. }
  destruct (proto o) as [ | | p]; simpl.
  - exact Hset.
  - apply cache_lookup_define_eq.
  - destruct (own_property p "__proto__"); [apply cache_lookup_define_eq | exact Hset].
Qed.

Lemma present_and_fresh_entry now entry :
  present_and_fresh now (Some entry) = Returned (is_fresh now entry).
Proof.
  unfold present_and_fresh, fresh, is_fresh, timestamp_of.
  destruct entry as [ | [] | n | s | items | fields ]; simpl; try reflexivity.
  - destruct (n =? 0); reflexivity.
  - destruct (String.eqb s ""); reflexivity.
  - destruct (ToNumber (assoc "timestamp" fields)); reflexivity.
Qed.

Lemma present_and_fresh_memory w st url :
  present_and_fresh (now_memory w) (cache st !! url) = Returned (memory_fresh w st url).
Proof.
  unfold memory_fresh. destruct (cache st !! url) as [cached|].
  - apply present_and_fresh_entry.
  - reflexivity.
Qed.

Lemma is_fresh_object now entry :
  is_fresh now entry = true ->
  exists fields t, entry = JObj fields /\
    ToNumber (assoc "timestamp" fields) = Some t /\ now - t < cacheTime.
Proof.
  unfold is_fresh, timestamp_of.
  destruct entry as [ | b | n | s | items | fields ]; try discriminate.
  destruct (ToNumber (assoc "timestamp" fields)) as [t|] eqn:E; try discriminate.
  intros Hlt. exists fields, t. repeat split; try assumption. lia.
Qed.

Lemma get_data entry :
  truthy (Some entry) = true -> get (Some entry) "data" = Returned (data_of entry).
Proof. destruct entry; simpl; try reflexivity. discriminate. Qed.

Lemma is_fresh_truthy now entry : is_fresh now entry = true -> truthy (Some entry) = true.
Proof. intros (fields & t & -> & _)%is_fresh_object. reflexivity. Qed.

(** [readLocalCache] catches whatever the storage and the parser throw: it
    returns [null] or the object that the stored text denotes. *)
Lemma readLocalCache_returns w ls url :
  exists local, readLocalCache w ls url = Returned local /\
    (local = JNull \/
     (truthy (Some local) = true /\ storage_readable w = true /\
      ls !! lsKey url = Some (Text local))).
Proof.
  unfold readLocalCache, getItem.
  destruct (storage_readable w) eqn:Hr; simpl; [|eauto].
  destruct (ls !! lsKey url) as [[ | | doc]|] eqn:Hl; simpl; eauto.
  change (match doc with JNull => false | JBool b => b | JNum n => negb (n =? 0)
          | JStr s => negb (String.eqb s "") | _ => true end)
    with (truthy (Some doc)).
  destruct (truthy (Some doc)) eqn:Ht, (typeof_object doc) eqn:Ho; simpl; eauto.
  exists doc. split; [reflexivity|]. right. auto.
Qed.

Lemma readLocalCache_entry w ls url data now :
  storage_readable w = true ->
  ls !! lsKey url = Some (Text (payload data now)) ->
  readLocalCache w ls url = Returned (payload data now).
Proof.
  intros Hr Hl. unfold readLocalCache, getItem. rewrite Hr. simpl. rewrite Hl. reflexivity.
Qed.

Lemma readLocalCache_absent w ls url :
  ls !! lsKey url = None -> readLocalCache w ls url = Returned JNull.
Proof.
  intros Hl. unfold readLocalCache, getItem.
  destruct (storage_readable w); simpl; [rewrite Hl|]; reflexivity.
Qed.

(** [writeLocalCache] swallows a failing [setItem]. *)
Lemma writeLocalCache_returns w ls url data :
  writeLocalCache w ls url data =
  Returned (if storage_writable w
            then <[lsKey url := Text (payload data (now_persist w))]> ls
            else ls).
Proof. unfold writeLocalCache, setItem. destruct (storage_writable w); reflexivity. Qed.

(** The [try] block returns the document of a good response and throws
    otherwise. *)
Lemma request_success st w url useCache data :
  network_data w = Some data ->
  request st w url useCache =
  Returned {| value := Some data;
              after := if useCache
                       then {| cache := <[url := payload data (now_payload w)]> (cache st);
                               storage := if storage_writable w
                                          then <[lsKey url := Text (payload data (now_persist w))]> (storage st)
                                          else storage st |}
                       else st;
              requests := [url] |}.
Proof.
  unfold network_data, request.
  destruct (network w) as [|status [doc|]]; try discriminate.
  destruct (response_ok status); try discriminate.
  intros [= ->]. simpl. destruct useCache; [|reflexivity].
  rewrite writeLocalCache_returns. reflexivity.
Qed.

Lemma request_failure st w url useCache :
  network_data w = None -> exists e, request st w url useCache = Thrown e.
Proof.
  unfold network_data, request.
  destruct (network w) as [|status [doc|]]; simpl; eauto;
    destruct (response_ok status); simpl; eauto; discriminate.
Qed.

(** The four ways through [fetchJson] with the cache on. *)
Lemma fetchJson_memory st w url cached :
  cache st !! url = Some cached ->
  is_fresh (now_memory w) cached = true ->
  fetchJson st w url true =
  Returned {| value := data_of cached; after := st; requests := [] |}.
Proof.
  intros Hc Hf. unfold fetchJson. rewrite present_and_fresh_memory.
  unfold memory_fresh. rewrite Hc, Hf, bind_Returned.
  rewrite (get_data cached) by (eapply is_fresh_truthy; eassumption).
  reflexivity.
Qed.

Lemma fetchJson_hydrate st w url local :
  memory_fresh w st url = false ->
  readLocalCache w (storage st) url = Returned local ->
  is_fresh (now_local w) local = true ->
  fetchJson st w url true =
  Returned {| value := data_of local;
              after := {| cache := <[url := local]> (cache st); storage := storage st |};
              requests := [] |}.
Proof.
  intros Hm Hl Hf. unfold fetchJson.
  rewrite present_and_fresh_memory, Hm, bind_Returned, Hl, bind_Returned.
  rewrite present_and_fresh_entry, Hf, bind_Returned.
  rewrite (get_data local) by (eapply is_fresh_truthy; eassumption).
  reflexivity.
Qed.

Lemma fetchJson_network st w url local data :
  memory_fresh w st url = false ->
  readLocalCache w (storage st) url = Returned local ->
  is_fresh (now_local w) local = false ->
  network_data w = Some data ->
  fetchJson st w url true = request st w url true.
Proof.
  intros Hm Hl Hf Hn. unfold fetchJson.
  rewrite present_and_fresh_memory, Hm, bind_Returned, Hl, bind_Returned.
  rewrite present_and_fresh_entry, Hf, bind_Returned.
  rewrite (request_success _ _ _ _ _ Hn). reflexivity.
Qed.

Lemma fetchJson_fallback st w url local :
  memory_fresh w st url = false ->
  readLocalCache w (storage st) url = Returned local ->
  is_fresh (now_local w) local = false ->
  network_data w = None ->
  fetchJson st w url true =
  Returned {| value := if truthy (data_of local) then data_of local else null;
              after := st; requests := [url] |}.
Proof.
  intros Hm Hl Hf Hn. unfold fetchJson.
  rewrite present_and_fresh_memory, Hm, bind_Returned, Hl, bind_Returned.
  rewrite present_and_fresh_entry, Hf, bind_Returned.
  destruct (request_failure st w url true Hn) as [e ->]. simpl.
  unfold fallback.
  destruct (readLocalCache_returns w (storage st) url) as (l & Hl' & Hcase).
  rewrite Hl in Hl'. injection Hl' as <-.
  destruct Hcase as [-> | (Ht & _)].
  - reflexivity.
  - cbn [andb]. rewrite Ht, (get_data local Ht), bind_Returned.
    destruct (truthy (data_of local)); reflexivity.
Qed.

(** With the cache off, neither tier is looked at. *)
Lemma fetchJson_uncached st w url :
  fetchJson st w url false =
  Returned {| value := match network_data w with Some data => Some data | None => null end;
              after := st; requests := [url] |}.
Proof.
  unfold fetchJson. simpl.
  destruct (network_data w) as [data|] eqn:Hn.
  - rewrite (request_success _ _ _ _ _ Hn). reflexivity.
  - destruct (request_failure st w url false Hn) as [e ->]. reflexivity.
Qed.

(** Every call takes one of four ways. *)
Lemma fetchJson_cases st w url :
  exists local, readLocalCache w (storage st) url = Returned local /\
    (local = JNull \/ storage st !! lsKey url = Some (Text local)) /\
    ((exists cached, cache st !! url = Some cached /\
        is_fresh (now_memory w) cached = true /\
        fetchJson st w url true =
        Returned {| value := data_of cached; after := st; requests := [] |})
     \/ (memory_fresh w st url = false /\
         is_fresh (now_local w) local = true /\
         fetchJson st w url true =
         Returned {| value := data_of local;
                     after := {| cache := <[url := local]> (cache st);
                                 storage := storage st |};
                     requests := [] |})
     \/ (memory_fresh w st url = false /\
         is_fresh (now_local w) local = false /\
         exists data, network_data w = Some data /\
           fetchJson st w url true = request st w url true)
     \/ (memory_fresh w st url = false /\
         is_fresh (now_local w) local = false /\
         network_data w = None /\
         fetchJson st w url true =
         Returned {| value := if truthy (data_of local) then data_of local else null;
                     after := st; requests := [url] |})).
Proof.
  destruct (readLocalCache_returns w (storage st) url) as (local & Hl & Hcase).
  exists local. split; [exact Hl|]. split; [tauto|].
  destruct (memory_fresh w st url) eqn:Hm.
  - left. unfold memory_fresh in Hm.
    destruct (cache st !! url) as [cached|] eqn:Hc; [|discriminate].
    exists cached. eauto using fetchJson_memory.
  - right. destruct (is_fresh (now_local w) local) eqn:Hf.
    + left. eauto using fetchJson_hydrate.
    + right. destruct (network_data w) as [data|] eqn:Hn.
      * left. eauto 10 using fetchJson_network.
      * right. eauto using fetchJson_fallback.
Qed.


Lemma timestamp_of_payload data now : timestamp_of (payload data now) = Some now.
Proof. reflexivity. Qed.

Lemma data_of_payload data now : data_of (payload data now) = Some data.
Proof. reflexivity. Qed.

Lemma is_fresh_payload now data t :
  now - t < cacheTime -> is_fresh now (payload data t) = true.
Proof.
  intros Hlt. unfold is_fresh. rewrite timestamp_of_payload.
  apply Z.ltb_lt. exact Hlt.
Qed.




(** ** What the specification says of [fetchJson] *)




(** C4. Two calls for one url with the cache on, the first answered by the
    network and the second starting within ten minutes of the timestamp the
    first one stored: both return, one request goes out in all, and the
    second call gives the data of the first. *)
Theorem fetchJson_twice_one_request st w1 w2 url r1 data :
  fetchJson st w1 url true = Returned r1 ->
  requests r1 = [url] ->
  network_data w1 = Some data ->
  now_memory w2 - now_payload w1 < cacheTime ->
  exists r2,
    run st [ {| call_world := w1; call_url := url; call_useCache := true |};
             {| call_world := w2; call_url := url; call_useCache := true |} ]
    = Returned [r1; r2] /\
    value r1 = Some data /\ value r2 = Some data /\
    (requests r1 ++ requests r2)%list = [url] /\
    after r2 = after r1.
Proof.
  intros Hr1 Hreq Hn Hlt.
  assert (E1 : r1 = {| value := Some data;
                       after := {| cache := <[url := payload data (now_payload w1)]> (cache st);
                                   storage := if storage_writable w1
                                              then <[lsKey url := Text (payload data (now_persist w1))]> (storage st)
                                              else storage st |};
                       requests := [url] |}).
  { destruct (fetchJson_cases st w1 url) as (local & Hl & _ & Hcase).
    destruct Hcase as [(cached & _ & _ & E) | [(_ & _ & E) | [(_ & _ & d & Hd & E) | (_ & _ & Hnone & _)]]].
    - rewrite E in Hr1. injection Hr1 as <-. discriminate.
    - rewrite E in Hr1. injection Hr1 as <-. discriminate.
    - rewrite E, (request_success _ _ _ _ _ Hn) in Hr1. injection Hr1 as <-. reflexivity.
    - congruence. }
  assert (E2 : fetchJson (after r1) w2 url true =
               Returned {| value := Some data; after := after r1; requests := [] |}).
  { rewrite (fetchJson_memory (after r1) w2 url (payload data (now_payload w1))).
    - reflexivity.
    - rewrite E1. simpl. apply cache_lookup_insert_payload.
    - apply is_fresh_payload. exact Hlt. }
  eexists. simpl. rewrite Hr1, bind_Returned, E2. simpl.
  split; [reflexivity|]. rewrite E1. simpl. auto.
Qed.

(** C5. What a cache write stores is what the next read within ten minutes
    gives back: from the in-process map whatever [localStorage] holds by
    then, and from [localStorage] alone, when the write went through and the
    in-process map has nothing fresh (a reloaded page). *)
Theorem cache_round_trip st w1 w2 url r1 data :
  request st w1 url true = Returned r1 ->
  network_data w1 = Some data ->
  (forall ls,
     now_memory w2 - now_payload w1 < cacheTime ->
     exists r2,
       fetchJson {| cache := cache (after r1); storage := ls |} w2 url true = Returned r2 /\
       value r2 = Some data /\ requests r2 = [])
  /\ (forall memory,
       storage_writable w1 = true -> storage_readable w2 = true ->
       memory_fresh w2 {| cache := memory; storage := storage (after r1) |} url = false ->
       now_local w2 - now_persist w1 < cacheTime ->
       exists r2,
         fetchJson {| cache := memory; storage := storage (after r1) |} w2 url true
         = Returned r2 /\
         value r2 = Some data /\ requests r2 = [] /\
         cache (after r2) !! url = Some (payload data (now_persist w1))).
Proof.
  intros Hr1 Hn. rewrite (request_success _ _ _ _ _ Hn) in Hr1. injection Hr1 as <-.
  simpl. split.
  - intros ls Hlt. eexists. split.
    + apply (fetchJson_memory _ w2 url (payload data (now_payload w1))).
      * simpl. apply cache_lookup_insert_payload.
      * apply is_fresh_payload. exact Hlt.
    + split; reflexivity.
  - intros memory Hw Hrd Hm Hlt. rewrite Hw in *.
    eexists. split.
    + apply (fetchJson_hydrate _ w2 url (payload data (now_persist w1))).
      * exact Hm.
      * apply readLocalCache_entry; [exact Hrd|]. simpl. apply lookup_insert_eq.
      * apply is_fresh_payload. exact Hlt.
    + split; [reflexivity|]. split; [reflexivity|]. simpl.
      apply cache_lookup_insert_payload.
Qed.

Lemma fetchJson_timestamp_step st c r key entry t :
  steady_clock c -> call_url c <> "__proto__"%string ->
  fetchJson st (call_world c) (call_url c) (call_useCache c) = Returned r ->
  cache st !! key = Some entry -> timestamp_of entry = Some t ->
  ~ network_write c r key ->
  exists entry' t',
    cache (after r) !! key = Some entry' /\ timestamp_of entry' = Some t' /\ t <= t'.
Proof.
  destruct c as [w url useCache]. unfold steady_clock, network_write. simpl.
  intros Hclock Hown Hr Hc Ht Hquiet.
  assert (Hsame : after r = st -> exists entry' t',
            cache (after r) !! key = Some entry' /\ timestamp_of entry' = Some t' /\ t <= t').
  { intros ->. exists entry, t. repeat split; [assumption | assumption | lia]. }
  destruct useCache; [|rewrite fetchJson_uncached in Hr; injection Hr as <-; auto].
  destruct (fetchJson_cases st w url) as (local & Hl & _ & Hcase).
  destruct Hcase as [(cached & _ & _ & E) | [(Hm & Hf & E) | [(_ & _ & data & Hn & E) | (_ & _ & _ & E)]]];
    rewrite E in Hr.
  - injection Hr as <-. auto.
  - injection Hr as <-. simpl. destruct (decide (url = key)) as [-> | Hne].
    + rewrite cache_lookup_insert_eq by exact Hown.
      unfold memory_fresh in Hm. rewrite Hc in Hm.
      unfold is_fresh in Hm, Hf. rewrite Ht in Hm.
      destruct (timestamp_of local) as [t'|] eqn:Ht'; [|discriminate].
      apply Z.ltb_ge in Hm. apply Z.ltb_lt in Hf.
      exists local, t'. repeat split; [assumption | lia].
    + rewrite cache_lookup_insert_ne by assumption. exists entry, t.
      repeat split; [assumption | assumption | lia].
  - rewrite (request_success _ _ _ _ _ Hn) in Hr. injection Hr as <-. simpl.
    destruct (decide (url = key)) as [-> | Hne].
    + exfalso. apply Hquiet. simpl. rewrite Hn. eauto.
    + rewrite cache_lookup_insert_ne by assumption. exists entry, t.
      repeat split; [assumption | assumption | lia].
  - injection Hr as <-. auto.
Qed.

(** C9, as amended. Take calls whose clock does not run backwards between
    their two cache tests and whose url is not [__proto__], the key that
    stands for the prototype of [this.cache]. For every key, such a call
    that does not store a fresh network response for it leaves the timestamp
    of its in-process entry at least as large as it was, and so does any
    sequence of such calls; when the entry is replaced by a fresh entry of
    [localStorage], the new timestamp is the larger one. *)
Theorem timestamp_never_decreases key :
  (forall st c r entry t,
     steady_clock c -> call_url c <> "__proto__"%string ->
     fetchJson st (call_world c) (call_url c) (call_useCache c) = Returned r ->
     cache st !! key = Some entry -> timestamp_of entry = Some t ->
     ~ network_write c r key ->
     exists entry' t',
       cache (after r) !! key = Some entry' /\ timestamp_of entry' = Some t' /\ t <= t')
  /\ (forall calls st replies entry t,
       Forall (fun c => steady_clock c /\ call_url c <> "__proto__"%string) calls ->
       run st calls = Returned replies ->
       Forall2 (fun c r => ~ network_write c r key) calls replies ->
       cache st !! key = Some entry -> timestamp_of entry = Some t ->
       exists entry' t',
         cache (state_after st replies) !! key = Some entry' /\
         timestamp_of entry' = Some t' /\ t <= t')
  /\ (forall st w local entry t t',
       now_memory w <= now_local w -> key <> "__proto__"%string ->
       memory_fresh w st key = false ->
       readLocalCache w (storage st) key = Returned local ->
       is_fresh (now_local w) local = true ->
       cache st !! key = Some entry ->
       timestamp_of entry = Some t -> timestamp_of local = Some t' ->
       t < t' /\
       exists r, fetchJson st w key true = Returned r /\
         cache (after r) !! key = Some local).
Proof.
  split; [|split].
  - intros st c r entry t. apply fetchJson_timestamp_step.
  - induction calls as [|c rest IH]; intros st replies entry t Hclock Hrun Hquiet Hc Ht.
    + injection Hrun as <-. exists entry, t. repeat split; [assumption | assumption | lia].
    + simpl in Hrun.
      destruct (fetchJson st (call_world c) (call_url c) (call_useCache c)) as [r|e] eqn:Hr;
        [|discriminate].
      rewrite bind_Returned in Hrun.
      destruct (run (after r) rest) as [rs|e] eqn:Hrs; [|discriminate].
      injection Hrun as <-.
      inversion Hclock as [|c0 rest0 [Hc0 Hown0] Hrest]; subst.
      inversion Hquiet as [|c1 r1 rest1 rs1 Hq Hqs]; subst.
      destruct (fetchJson_timestamp_step st c r key entry t Hc0 Hown0 Hr Hc Ht Hq)
        as (entry1 & t1 & Hc1 & Ht1 & Hle1).
      destruct (IH (after r) rs entry1 t1 Hrest Hrs Hqs Hc1 Ht1)
        as (entry2 & t2 & Hc2 & Ht2 & Hle2).
      exists entry2, t2. repeat split; [exact Hc2 | exact Ht2 | lia].
  - intros st w local entry t t' Hclock Hown Hm Hl Hf Hc Ht Ht'. split.
    + unfold memory_fresh in Hm. rewrite Hc in Hm.
      unfold is_fresh in Hm, Hf. rewrite Ht in Hm. rewrite Ht' in Hf.
      apply Z.ltb_ge in Hm. apply Z.ltb_lt in Hf. lia.
    + rewrite (fetchJson_hydrate st w key local Hm Hl Hf).
      eexists. split; [reflexivity|]. simpl. apply cache_lookup_insert_eq. exact Hown.
Qed.

(** C10. With the cache off, [fetchJson] returns the document of a good
    response and [null] otherwise, puts one request on the network and
    leaves both tiers as they were; what it returns does not depend on what
    the tiers hold. *)
Theorem fetchJson_cache_off st w url :
  fetchJson st w url false =
  Returned {| value := match network_data w with
                       | Some data => Some data
                       | None => null
                       end;
              after := st; requests := [url] |}
  /\ forall st', exists r r',
       fetchJson st w url false = Returned r /\
       fetchJson st' w url false = Returned r' /\
       value r = value r' /\ requests r = requests r'.
Proof.
  split; [apply fetchJson_uncached|].
  intros st'. rewrite !fetchJson_uncached. eexists _, _.
  repeat split; reflexivity.
Qed.

End Client.

(** * Properties of the Troubleshooting page *)

Section Troubleshooting.

Local Open Scope string_scope.

Lemma Array_includes_In labels x : Array_includes labels x = true <-> In x labels.
Proof.
  unfold Array_includes. rewrite existsb_exists. split.
  - intros (y & Hin & ->%String.eqb_eq). exact Hin.
  - intros Hin. exists x. split; [exact Hin | apply String.eqb_refl].
Qed.

Lemma Array_includes_not_In labels x : Array_includes labels x = false <-> ~ In x labels.
Proof.
  rewrite <- Array_includes_In. destruct (Array_includes labels x); split; congruence.
Qed.

Lemma starts_with_spec s q : starts_with s q = true <-> exists behind, s = q +:+ behind.
Proof.
  revert s. induction q as [|b q IH]; intros s.
  - destruct s; simpl; split; eauto.
  - destruct s as [|a s]; simpl.
    + split; [discriminate | intros (behind & E); discriminate].
    + rewrite andb_true_iff, Ascii.eqb_eq, IH. split.
      * intros (-> & behind & ->). eauto.
      * intros (behind & [= -> ->]). eauto.
Qed.

Lemma String_includes_spec s q : String_includes s q = true <-> substring q s.
Proof.
  unfold substring. induction s as [|a s IH]; cbn [String_includes].
  - rewrite orb_false_r, starts_with_spec. split.
    + intros (behind & E). exists "", behind. exact E.
    + intros ([|c before] & behind & E); [eauto | discriminate].
  - rewrite orb_true_iff, starts_with_spec, IH. split.
    + intros [(behind & E) | (before & behind & ->)].
      * exists "", behind. exact E.
      * exists (String a before), behind. reflexivity.
    + intros ([|c before] & behind & E).
      * left. eauto.
      * right. injection E as -> ->. eauto.
Qed.

Lemma matches_all_empty item : matches "all" "" item = true.
Proof. reflexivity. Qed.

Lemma filter_keeps_all {A} (keep : A -> bool) (l : list A) :
  (forall x, keep x = true) -> List.filter keep l = l.
Proof.
  intros Hall. induction l as [|x l IH]; simpl; [reflexivity|].
  rewrite Hall, IH. reflexivity.
Qed.

Lemma filter_sublist {A} (keep : A -> bool) (l : list A) :
  List.filter keep l `sublist_of` l.
Proof.
  induction l as [|x l IH]; simpl.
  - constructor.
  - destruct (keep x); constructor; exact IH.
Qed.

(** C6. The category of a record is found from its lower-case labels in a
    fixed order: [windows] if that label is there; else [macos] if [macos]
    or [mac] is; else [pro] if [pro] is; else [macro]. A record labelled
    [pro] and [windows] is a [windows] record. *)
Theorem category_of_priority :
  (forall i, Fix.category (normalize i) = category_of (Fix.labels (normalize i)))
  /\ (forall labels,
       (In "windows" labels -> category_of labels = "windows")
       /\ (~ In "windows" labels -> In "macos" labels \/ In "mac" labels ->
           category_of labels = "macos")
       /\ (~ In "windows" labels -> ~ In "macos" labels -> ~ In "mac" labels ->
           In "pro" labels -> category_of labels = "pro")
       /\ (~ In "windows" labels -> ~ In "macos" labels -> ~ In "mac" labels ->
           ~ In "pro" labels -> category_of labels = "macro"))
  /\ category_of ["pro"; "windows"] = "windows"
  /\ Fix.labels (normalize pro_and_windows) = ["pro"; "windows"]
  /\ Fix.category (normalize pro_and_windows) = "windows".
Proof.
  split; [reflexivity|]. split; [|repeat split; reflexivity].
  intros labels. unfold category_of. repeat split.
  - intros Hw%Array_includes_In. rewrite Hw. reflexivity.
  - intros Hw%Array_includes_not_In Hm. rewrite Hw.
    destruct Hm as [Hm%Array_includes_In | Hm%Array_includes_In]; rewrite Hm;
      [reflexivity | apply orb_true_r || (rewrite orb_true_r; reflexivity)].
  - intros Hw%Array_includes_not_In Hm%Array_includes_not_In Hc%Array_includes_not_In
      Hp%Array_includes_In.
    rewrite Hw, Hm, Hc, Hp. reflexivity.
  - intros Hw%Array_includes_not_In Hm%Array_includes_not_In Hc%Array_includes_not_In
      Hp%Array_includes_not_In.
    rewrite Hw, Hm, Hc, Hp. simpl. destruct (Array_includes labels "macro"); reflexivity.
Qed.

(** C7. [matches] keeps a record exactly when the selected category is
    [all] or equals the record's category, and the query is empty or its
    lower-case form occurs in the lower-case title, in the lower-case body
    or in one of the labels. Of the two sample records, the category
    [windows] keeps the first only, and the query [mic] with the category
    [all] keeps the second only. *)
Theorem matches_spec :
  (forall activeCat query item,
     matches activeCat query item = true <->
     (activeCat = "all" \/ Fix.category item = activeCat) /\
     (query = "" \/
      substring (toLowerCase query) (toLowerCase (Fix.title item)) \/
      substring (toLowerCase query) (toLowerCase (Fix.body item)) \/
      exists l, In l (Fix.labels item) /\ substring (toLowerCase query) l))
  /\ renderItems (normalized [crash_on_login; mic_not_detected]) "windows" ""
     = [normalize crash_on_login]
  /\ renderItems (normalized [crash_on_login; mic_not_detected]) "all" "mic"
     = [normalize mic_not_detected].
Proof.
  split; [|split; reflexivity].
  intros activeCat query item. unfold matches.
  assert (Hcat : (if String.eqb activeCat "all" then true
                  else String.eqb (Fix.category item) activeCat) = true <->
                 activeCat = "all" \/ Fix.category item = activeCat).
  { destruct (String.eqb_spec activeCat "all") as [-> | Hne].
    - split; auto.
    - rewrite String.eqb_eq. split; [auto | intros [? | ?]; [contradiction | assumption]]. }
  destruct (if String.eqb activeCat "all" then true
            else String.eqb (Fix.category item) activeCat) eqn:HinCat; simpl.
  - destruct (String.eqb_spec query "") as [-> | Hq].
    + split; [intros _; split; [apply Hcat; reflexivity | auto] | reflexivity].
    + rewrite !orb_true_iff, !String_includes_spec, existsb_exists.
      split.
      * intros Hm. split; [apply Hcat; reflexivity|]. right.
        destruct Hm as [[Ht | Hb] | (l & Hin & Hl%String_includes_spec)]; eauto.
      * intros (_ & [Hempty | [Ht | [Hb | (l & Hin & Hl)]]]); [contradiction | auto | auto |].
        right. exists l. split; [exact Hin | apply String_includes_spec; exact Hl].
  - split; [discriminate|]. intros (Hc%Hcat & _). discriminate.
Qed.

(** C8. What [renderItems] shows is a sublist of the records it is given, in
    their order; with the category [all] and an empty query it shows every
    record, that is every issue that is not a pull request, normalised, in
    the order of the issues. *)
Theorem renderItems_stable :
  (forall records activeCat query,
     renderItems records activeCat query `sublist_of` records)
  /\ (forall records, renderItems records "all" "" = records)
  /\ (forall issues,
       renderItems (normalized issues) "all" ""
       = map normalize
           (List.filter (fun i => negb (truthy (Issue.pull_request i))) issues))
  /\ (forall issues,
       List.filter (fun i => negb (truthy (Issue.pull_request i))) issues
       `sublist_of` issues).
Proof.
  repeat split.
  - intros records activeCat query. apply filter_sublist.
  - intros records. apply filter_keeps_all, matches_all_empty.
  - intros issues. unfold renderItems. rewrite filter_keeps_all by apply matches_all_empty.
    reflexivity.
  - intros issues. apply filter_sublist.
Qed.

End Troubleshooting.

(** * The properties at work on sample data *)

Section Samples.

Local Open Scope Z_scope.






Lemma fetchJson_twice_one_request_witness :
  exists r2,
    run (H := plain_host) first_visit
      [ {| call_world := at_time 1000 (Responded 200 (Some releases_doc));
           call_url := releases_url; call_useCache := true |};
        {| call_world := at_time 2000 Rejected;
           call_url := releases_url; call_useCache := true |} ]
    = Returned [first_reply; r2] /\
    value first_reply = Some releases_doc /\ value r2 = Some releases_doc /\
    (requests first_reply ++ requests r2)%list = [releases_url] /\
    after r2 = after first_reply.
Proof.
  apply (fetchJson_twice_one_request (H := plain_host) first_visit
           (at_time 1000 (Responded 200 (Some releases_doc)))
           (at_time 2000 Rejected) releases_url first_reply releases_doc).
  - vm_compute. reflexivity.
  - reflexivity.
  - reflexivity.
  - reflexivity.
Defined.

Lemma cache_round_trip_witness :
  exists r2,
    fetchJson (H := plain_host) {| cache := ∅; storage := storage (after first_reply) |}
      (at_time 2000 Rejected) releases_url true = Returned r2 /\
    value r2 = Some releases_doc /\ requests r2 = [] /\
    cache (after r2) !! releases_url = Some (payload releases_doc 1000).
Proof.
  apply (proj2 (cache_round_trip (H := plain_host) first_visit
                  (at_time 1000 (Responded 200 (Some releases_doc)))
                  (at_time 2000 Rejected) releases_url first_reply releases_doc
                  ltac:(vm_compute; reflexivity) eq_refl) ∅);
    reflexivity.
Defined.

Lemma timestamp_never_decreases_witness :
  exists entry' t',
    cache (after {| value := Some releases_doc;
                    after := {| cache := {[ releases_url := payload releases_doc 650000 ]};
                                storage := stored_releases 650000 |};
                    requests := [] |}) !! releases_url = Some entry' /\
    timestamp_of (H := plain_host) entry' = Some t' /\ 1000 <= t'.
Proof.
  apply (proj1 (timestamp_never_decreases (H := plain_host) releases_url)
           aged_client (releases_call (at_time 700000 Rejected)) _
           (payload releases_doc 1000) 1000).
  - unfold steady_clock. simpl. lia.
  - discriminate.
  - vm_compute. reflexivity.
  - vm_compute. reflexivity.
  - reflexivity.
  - intros (_ & _ & Hreq & _). discriminate Hreq.
Defined.


(** C9, as stated, fails. When the clock of a call runs backwards between
    its two cache tests, an entry written at 700000 is found stale at the
    first test, the entry of time 1000 in [localStorage] is found fresh at
    the second and takes its place: the timestamp goes down and no request
    goes out. And two responses for the url [__proto__] change what the key
    [data] reads, from a timestamp of 5000 to one of 10, with no call for
    the url [data]. *)
Lemma timestamp_decreases_without_request :
  (cache late_client !! releases_url ≫= timestamp_of (H := plain_host)) = Some 700000
  /\ fetchJson (H := plain_host) late_client clock_back releases_url true
     = Returned {| value := Some releases_doc;
                   after := {| cache := <[releases_url := payload releases_doc 1000]>
                                          (cache late_client);
                               storage := stored_releases 1000 |};
                   requests := [] |}
  /\ (<[releases_url := payload releases_doc 1000]> (cache late_client) !! releases_url
      ≫= timestamp_of (H := plain_host)) = Some 1000
  /\ (cache (run_state (H := plain_host) first_visit [proto_call 5000 (stamped 5000)])
        !! "data"%string ≫= timestamp_of (H := plain_host)) = Some 5000
  /\ (cache (run_state (H := plain_host) first_visit
               [proto_call 5000 (stamped 5000); proto_call 700000 (stamped 10)])
        !! "data"%string ≫= timestamp_of (H := plain_host)) = Some 10.
Proof. repeat split; vm_compute; reflexivity. Qed.

(** The guard [local.data] of the [catch] block also holds back a stale
    entry whose data is falsy. *)
Example fetchJson_fallback_skips_falsy_data :
  fetchJson (H := plain_host)
    (new_GitHubAPI {[ lsKey releases_url := Text (payload (JNum 0) 1000) ]})
    (at_time 700000 Rejected) releases_url true
  = Returned {| value := null;
                after := new_GitHubAPI {[ lsKey releases_url := Text (payload (JNum 0) 1000) ]};
                requests := [releases_url] |}.
Proof. vm_compute. reflexivity. Qed.

End Samples.

Section TroubleshootingSamples.

Local Open Scope string_scope.

Lemma category_of_priority_witness : category_of ["macos"; "pro"] = "macos".
Proof.
  apply (proj1 (proj2 (proj1 (proj2 category_of_priority) ["macos"; "pro"]))).
  - intros [E | [E | []]]; discriminate E.
  - left. left. reflexivity.
Defined.

Lemma matches_spec_witness : matches "windows" "CRASH" (normalize crash_on_login) = true.
Proof.
  apply (proj2 (proj1 matches_spec "windows" "CRASH" (normalize crash_on_login))).
  split.
  - right. reflexivity.
  - right. left. exists "", " on login". reflexivity.
Defined.

End TroubleshootingSamples.

(** * Escaping: [escapeHtml] and [encodeURIComponent] *)

Section Escaping.

Local Open Scope string_scope.

Ltac each_char c := destruct c as [[] [] [] [] [] [] [] []].

Lemma string_app_cons (x : ascii) (a b : string) : String x a +:+ b = String x (a +:+ b).
Proof. reflexivity. Qed.

Lemma string_app_assoc (a b c : string) : (a +:+ b) +:+ c = a +:+ (b +:+ c).
Proof.
  induction a as [|x a IH]; [reflexivity|].
  rewrite !string_app_cons, IH. reflexivity.
Qed.

Lemma chars_app (a b : string) : chars (a +:+ b) = (chars a ++ chars b)%list.
Proof.
  unfold chars. induction a as [|x a IH]; [reflexivity|].
  rewrite string_app_cons. simpl. f_equal. exact IH.
Qed.

Lemma chars_inj (a b : string) : chars a = chars b -> a = b.
Proof.
  unfold chars. revert b. induction a as [|x a IH]; intros [|y b]; simpl; try discriminate.
  - reflexivity.
  - intros [= -> E]. f_equal. apply IH. exact E.
Qed.

Lemma string_app_inv_tail (a b c : string) : a +:+ c = b +:+ c -> a = b.
Proof.
  intros E. apply chars_inj. apply (f_equal chars) in E.
  rewrite !chars_app in E. eapply app_inv_tail. exact E.
Qed.

Lemma string_app_inv_head (a b c : string) : a +:+ b = a +:+ c -> b = c.
Proof.
  induction a as [|x a IH]; [intros E; exact E|].
  rewrite !string_app_cons. intros [= E]. auto.
Qed.

Lemma string_app_length (a b : string) :
  String.length (a +:+ b) = (String.length a + String.length b)%nat.
Proof.
  induction a as [|x a IH]; [reflexivity|].
  rewrite string_app_cons. simpl. rewrite IH. reflexivity.
Qed.

Lemma escapeHtml_cons c rest : escapeHtml (String c rest) = escape_char c +:+ escapeHtml rest.
Proof. each_char c; reflexivity. Qed.

Lemma unescape_head_escape c rest : unescape_head (escape_char c +:+ rest) = Some (c, rest).
Proof. each_char c; reflexivity. Qed.

Lemma escape_char_plain c : markup c = false -> escape_char c = String c EmptyString.
Proof. each_char c; (reflexivity || discriminate). Qed.

Lemma escape_char_length c :
  (1 <= String.length (escape_char c))%nat /\
  (String.length (escape_char c) = 1%nat -> markup c = false).
Proof. each_char c; simpl; split; (lia || reflexivity || discriminate). Qed.

Lemma escapeHtml_length s : (String.length s <= String.length (escapeHtml s))%nat.
Proof.
  induction s as [|c s IH]; [reflexivity|].
  rewrite escapeHtml_cons, string_app_length. simpl.
  pose proof (proj1 (escape_char_length c)). lia.
Qed.

(** X1. [escapeHtml] works character by character: the five replacements
    never touch what an earlier one wrote, so the escaping of a text is the
    escapings of its characters put together, and the escaping of a
    concatenation is the concatenation of the escapings. *)
Theorem escapeHtml_app :
  (forall c rest, escapeHtml (String c rest) = escape_char c +:+ escapeHtml rest)
  /\ (forall a b, escapeHtml (a +:+ b) = escapeHtml a +:+ escapeHtml b).
Proof.
  split; [exact escapeHtml_cons|].
  intros a b. induction a as [|c a IH]; [reflexivity|].
  change (String c a +:+ b) with (String c (a +:+ b)).
  rewrite !escapeHtml_cons, IH, string_app_assoc. reflexivity.
Qed.

(** X2. An escaped text has no [<], no [>], no double quote and no single
    quote in it. *)
Theorem escapeHtml_no_delimiter s :
  Forall (fun c => c <> "<"%char /\ c <> ">"%char /\ c <> double_quote /\ c <> "'"%char)
         (chars (escapeHtml s)).
Proof.
  set (safe := fun c => negb (Ascii.eqb c "<" || Ascii.eqb c ">"
                                || Ascii.eqb c double_quote || Ascii.eqb c "'")).
  assert (Hsafe : forallb safe (chars (escapeHtml s)) = true).
  { induction s as [|c s IH]; [reflexivity|].
    rewrite escapeHtml_cons, chars_app, forallb_app, IH, andb_true_r.
    each_char c; reflexivity. }
  apply Forall_forall. intros c Hin%list_elem_of_In.
  rewrite forallb_forall in Hsafe. specialize (Hsafe c Hin).
  unfold safe in Hsafe. apply negb_true_iff in Hsafe.
  repeat apply orb_false_elim in Hsafe as [Hsafe ?].
  repeat split; intros ->; discriminate.
Qed.

(** X3. [escapeHtml] loses nothing: two texts with the same escaping are
    the same text. *)
Theorem escapeHtml_injective a b : escapeHtml a = escapeHtml b -> a = b.
Proof.
  revert b. induction a as [|c a IH]; intros [|d b].
  - reflexivity.
  - rewrite escapeHtml_cons. intros E%(f_equal unescape_head).
    rewrite unescape_head_escape in E. discriminate.
  - rewrite escapeHtml_cons. intros E%(f_equal unescape_head).
    rewrite unescape_head_escape in E. discriminate.
  - rewrite !escapeHtml_cons. intros E%(f_equal unescape_head).
    rewrite !unescape_head_escape in E. injection E as -> E.
    f_equal. apply IH. exact E.
Qed.

(** X4. [escapeHtml] leaves a text as it is exactly when the text has none
    of the five characters it replaces (the ampersand, the two angle
    brackets and the two quotes) in it. *)
Theorem escapeHtml_fixpoint s :
  escapeHtml s = s <-> Forall (fun c => markup c = false) (chars s).
Proof.
  split.
  - intros E%(f_equal String.length). induction s as [|c s IH]; [constructor|].
    rewrite escapeHtml_cons, string_app_length in E. simpl in E.
    pose proof (escape_char_length c) as [Hge Hone].
    pose proof (escapeHtml_length s).
    constructor; [apply Hone; lia | apply IH; lia].
  - induction s as [|c s IH]; [reflexivity|].
    simpl. intros [Hc Hs]%Forall_cons.
    rewrite escapeHtml_cons, (escape_char_plain c Hc), (IH Hs). reflexivity.
Qed.

Lemma percent_decode_head_encode c rest :
  percent_decode_head
    ((if unreserved c then String c EmptyString else percent_encode c) +:+ rest)
  = Some (c, rest).
Proof. each_char c; reflexivity. Qed.

Lemma encodeURIComponent_injective a b :
  encodeURIComponent a = encodeURIComponent b -> a = b.
Proof.
  revert b. induction a as [|c a IH]; intros [|d b]; simpl.
  - reflexivity.
  - intros E%(f_equal percent_decode_head).
    rewrite percent_decode_head_encode in E. discriminate.
  - intros E%(f_equal percent_decode_head).
    rewrite percent_decode_head_encode in E. discriminate.
  - intros E%(f_equal percent_decode_head).
    rewrite !percent_decode_head_encode in E. injection E as -> E.
    f_equal. apply IH. exact E.
Qed.

(** X5. What [encodeURIComponent] writes consists of unreserved characters
    and [%] only, so the labels in the issues URL cannot bring in an [&],
    an [=], a [#], a [?], a [/] or a blank. *)
Theorem encodeURIComponent_charset s :
  Forall (fun c => (unreserved c = true \/ c = "%"%char) /\
                   c <> "&"%char /\ c <> "="%char /\ c <> "#"%char /\
                   c <> "?"%char /\ c <> "/"%char /\ c <> " "%char)
         (chars (encodeURIComponent s)).
Proof.
  set (safe := fun c => unreserved c || Ascii.eqb c "%").
  assert (Hsafe : forallb safe (chars (encodeURIComponent s)) = true).
  { induction s as [|c s IH]; [reflexivity|].
    simpl. rewrite chars_app, forallb_app, IH, andb_true_r.
    each_char c; reflexivity. }
  apply Forall_forall. intros c Hin%list_elem_of_In.
  rewrite forallb_forall in Hsafe. specialize (Hsafe c Hin).
  unfold safe in Hsafe. split.
  - apply orb_true_iff in Hsafe as [Hu | ->%Ascii.eqb_eq]; auto.
  - repeat split; intros ->; discriminate.
Qed.

(** X6. The issues URL determines the label filter: for one owner and one
    repository, two label filters with the same URL, and so the same cache
    key, are the same filter. *)
Theorem getTroubleshootingIssuesUrl_injective owner repo labels labels' :
  getTroubleshootingIssuesUrl owner repo labels
  = getTroubleshootingIssuesUrl owner repo labels' ->
  labels = labels'.
Proof.
  unfold getTroubleshootingIssuesUrl. intros E.
  do 6 apply string_app_inv_head in E.
  apply string_app_inv_tail in E.
  apply encodeURIComponent_injective. exact E.
Qed.

End Escaping.

(** * More on the client: frames, failures, sequences *)

Section ClientFrames.
Context `{Host}.

Local Open Scope Z_scope.

Lemma lsKey_inj url url' : lsKey url = lsKey url' -> url = url'.
Proof. unfold lsKey. apply string_app_inv_head. Qed.



Lemma fetchJson_frame_aux st w url useCache r :
  fetchJson st w url useCache = Returned r ->
  (url <> "__proto__"%string ->
   forall url', url' <> url -> cache (after r) !! url' = cache st !! url')
  /\ (forall url', url' <> url ->
       storage (after r) !! lsKey url' = storage st !! lsKey url')
  /\ (forall key, key <> lsKey url -> storage (after r) !! key = storage st !! key).
Proof.
  intros Hr.
  assert (Hstore : forall key, key <> lsKey url ->
            storage (after r) !! key = storage st !! key).
  { intros key Hne. destruct useCache.
    - destruct (fetchJson_cases st w url) as (local & _ & _ & Hcase).
      destruct Hcase as [(cached & _ & _ & E) | [(_ & _ & E) | [(_ & _ & data & Hn & E) | (_ & _ & _ & E)]]];
        rewrite E in Hr; try (injection Hr as <-; reflexivity).
      rewrite (request_success _ _ _ _ _ Hn) in Hr. injection Hr as <-. simpl.
      destruct (storage_writable w); [|reflexivity].
      apply lookup_insert_ne. congruence.
    - rewrite fetchJson_uncached in Hr. injection Hr as <-. reflexivity. }
  split; [|split; [|exact Hstore]].
  - intros Hown url' Hne. destruct useCache.
    + destruct (fetchJson_cases st w url) as (local & _ & _ & Hcase).
      destruct Hcase as [(cached & _ & _ & E) | [(_ & _ & E) | [(_ & _ & data & Hn & E) | (_ & _ & _ & E)]]];
        rewrite E in Hr; try (injection Hr as <-; reflexivity).
      * injection Hr as <-. simpl. apply cache_lookup_insert_ne; congruence.
      * rewrite (request_success _ _ _ _ _ Hn) in Hr. injection Hr as <-. simpl.
        apply cache_lookup_insert_ne; congruence.
    + rewrite fetchJson_uncached in Hr. injection Hr as <-. reflexivity.
  - intros url' Hne. apply Hstore. intros E%lsKey_inj. contradiction.
Qed.

Lemma baseUrl_not_proto rest : baseUrl +:+ rest <> "__proto__"%string.
Proof. unfold baseUrl. rewrite string_app_cons. discriminate. Qed.

(** X7. A call for a url other than [__proto__] leaves what the in-process
    map gives for every other url as it was; a call for any url leaves the
    entries of every other url in [localStorage] alone and touches no key of
    [localStorage] but its own; two urls never share a key. *)
Theorem fetchJson_frame st w url useCache r :
  fetchJson st w url useCache = Returned r ->
  (url <> "__proto__"%string ->
   forall url', url' <> url -> cache (after r) !! url' = cache st !! url')
  /\ (forall url', url' <> url ->
       storage (after r) !! lsKey url' = storage st !! lsKey url')
  /\ (forall key, key <> lsKey url -> storage (after r) !! key = storage st !! key).
Proof. apply fetchJson_frame_aux. Qed.

(** X8. A request that fails writes nothing: both tiers are as they were,
    and the call gives [null] or the data of the entry [readLocalCache]
    found. *)
Theorem fetchJson_failure_keeps_state st w url useCache r :
  network_data w = None ->
  fetchJson st w url useCache = Returned r ->
  requests r = [url] ->
  after r = st /\
  (value r = null \/
   exists local, useCache = true /\
     readLocalCache w (storage st) url = Returned local /\
     value r = data_of local /\ truthy (data_of local) = true).
Proof.
  intros Hn Hr Hreq. destruct useCache.
  - destruct (fetchJson_cases st w url) as (local & Hl & _ & Hcase).
    destruct Hcase as [(cached & _ & _ & E) | [(_ & _ & E) | [(_ & _ & data & Hd & _) | (_ & _ & _ & E)]]].
    + rewrite E in Hr. injection Hr as <-. discriminate.
    + rewrite E in Hr. injection Hr as <-. discriminate.
    + congruence.
    + rewrite E in Hr. injection Hr as <-. simpl. split; [reflexivity|].
      destruct (truthy (data_of local)) eqn:Ht; [right | left; reflexivity].
      exists local. auto.
  - rewrite fetchJson_uncached, Hn in Hr. injection Hr as <-. auto.
Qed.


(** X10. While an entry of the in-process map is less than ten minutes
    old, every call for its url with the cache on is answered from it:
    however many calls come, none of them puts a request on the network or
    changes a tier. *)
Theorem run_within_ttl st url data t calls :
  cache st !! url = Some (payload data t) ->
  Forall (fun c => call_url c = url /\ call_useCache c = true /\
                   now_memory (call_world c) - t < cacheTime) calls ->
  run st calls
  = Returned (map (fun _ => {| value := Some data; after := st; requests := [] |}) calls).
Proof.
  intros Hc Hall. induction Hall as [|c rest (Hurl & Huse & Hlt) _ IH]; [reflexivity|].
  simpl. rewrite Hurl, Huse.
  rewrite (fetchJson_memory st (call_world c) url (payload data t) Hc)
    by (apply is_fresh_payload; exact Hlt).
  rewrite bind_Returned. simpl. rewrite IH. reflexivity.
Qed.

(** X11. [readLocalCache] never throws. It gives back the array or the
    object whose JSON text is stored under the key of the url, when
    [localStorage] can be read, and [null] in every other case: no item, an
    empty or unparsable text, or the text of [null], a boolean, a number or
    a string. *)
Theorem readLocalCache_shape w ls url :
  readLocalCache w ls url
  = Returned (match (if storage_readable w then ls !! lsKey url else None) with
              | Some (Text (JArr items)) => JArr items
              | Some (Text (JObj fields)) => JObj fields
              | _ => JNull
              end).
Proof.
  unfold readLocalCache, getItem. destruct (storage_readable w); [|reflexivity].
  simpl. destruct (ls !! lsKey url) as [[ | | doc]|]; try reflexivity.
  destruct doc as [ | [] | n | s | items | fields ]; simpl; try reflexivity.
  - destruct (n =? 0); reflexivity.
  - destruct (String.eqb s ""); reflexivity.
Qed.

(** X12. [writeLocalCache] never throws. When [localStorage] takes the
    write, [readLocalCache] then finds the data with the time of the write,
    whatever was stored before; when it refuses, the store is as it was;
    and what is stored for another url is read as before either way. *)
Theorem writeLocalCache_readLocalCache w w' ls url data :
  exists ls',
    writeLocalCache w ls url data = Returned ls' /\
    (storage_writable w = true -> storage_readable w' = true ->
     readLocalCache w' ls' url = Returned (payload data (now_persist w))) /\
    (storage_writable w = false -> ls' = ls) /\
    (forall url', url' <> url -> readLocalCache w' ls' url' = readLocalCache w' ls url').
Proof.
  rewrite writeLocalCache_returns. eexists. split; [reflexivity|].
  split; [|split].
  - intros -> Hr. apply readLocalCache_entry; [exact Hr | apply lookup_insert_eq].
  - intros ->. reflexivity.
  - intros url' Hne. destruct (storage_writable w); [|reflexivity].
    unfold readLocalCache, getItem. destruct (storage_readable w'); [|reflexivity].
    simpl. rewrite lookup_insert_ne; [reflexivity|].
    intros E%lsKey_inj. congruence.
Qed.

(** X13. The releases and the issues never share a cache entry: whatever
    the label filter, [getTroubleshootingIssues] leaves what both tiers
    hold for the releases, and [getReleases] leaves what they hold for the
    issues. *)
Theorem releases_and_issues_apart st w labels :
  (forall r, getTroubleshootingIssues st w labels = Returned r ->
     cache (after r) !! releases_url = cache st !! releases_url /\
     storage (after r) !! lsKey releases_url = storage st !! lsKey releases_url)
  /\ (forall r, getReleases st w = Returned r ->
       let url := getTroubleshootingIssuesUrl "RevolutionGuides" "revolutionmacroguide" labels in
       cache (after r) !! url = cache st !! url /\
       storage (after r) !! lsKey url = storage st !! lsKey url).
Proof.
  assert (Hne : getTroubleshootingIssuesUrl "RevolutionGuides" "revolutionmacroguide" labels
                <> releases_url).
  { unfold getTroubleshootingIssuesUrl, releases_url, getReleasesUrl, baseUrl.
    intros E. do 2 apply string_app_inv_head in E. discriminate E. }
  split.
  - intros r Hr. unfold getTroubleshootingIssues in Hr.
    destruct (fetchJson_frame_aux _ _ _ _ _ Hr) as (Hmem & Hls & _). split.
    + apply Hmem; [apply baseUrl_not_proto | congruence].
    + apply Hls. congruence.
  - intros r Hr url. unfold getReleases in Hr.
    destruct (fetchJson_frame_aux _ _ _ _ _ Hr) as (Hmem & Hls & _). split.
    + apply Hmem; [apply baseUrl_not_proto | exact Hne].
    + apply Hls. exact Hne.
Qed.

End ClientFrames.

(** * The quick jump: the pending scroll id *)

Section QuickJump.

Local Open Scope string_scope.

Lemma nonempty_Some id : nonempty (Some id) = true <-> id <> "".
Proof.
  simpl. destruct (String.eqb_spec id "") as [-> | Hne]; split; try congruence; auto.
Qed.

Lemma consume_present ss id :
  ss !! pendingScrollIdKey = Some id -> id <> "" ->
  consumePendingScrollId true ss = Returned (Some id, delete pendingScrollIdKey ss).
Proof.
  intros Hl Hne%nonempty_Some. unfold consumePendingScrollId, session_getItem.
  rewrite bind_Returned, Hl, Hne. reflexivity.
Qed.

Lemma consume_nothing reachable ss :
  reachable = false \/ nonempty (ss !! pendingScrollIdKey) = false ->
  consumePendingScrollId reachable ss = Returned (None, ss).
Proof.
  unfold consumePendingScrollId, session_getItem.
  destruct reachable; [|reflexivity].
  intros [? | Hn]; [discriminate|]. rewrite bind_Returned, Hn. reflexivity.
Qed.


(** X15. [consumePendingScrollId] never throws and touches no key but its
    own; once it has given an id, the id is gone: every later call gives
    [null], until an id is set again. *)
Theorem pending_scroll_consumed_once reachable ss :
  exists id ss',
    consumePendingScrollId reachable ss = Returned (id, ss') /\
    (forall key, key <> pendingScrollIdKey -> ss' !! key = ss !! key) /\
    (forall text, id = Some text ->
       text <> "" /\ ss !! pendingScrollIdKey = Some text /\
       forall reachable', consumePendingScrollId reachable' ss' = Returned (None, ss')).
Proof.
  destruct reachable.
  - destruct (ss !! pendingScrollIdKey) as [text|] eqn:Hl.
    + destruct (String.eqb_spec text "") as [-> | Hne].
      * exists None, ss. split; [|split; [reflexivity | discriminate]].
        apply consume_nothing. right. rewrite Hl. reflexivity.
      * exists (Some text), (delete pendingScrollIdKey ss).
        split; [apply consume_present; assumption|]. split.
        -- intros key Hk. apply lookup_delete_ne. congruence.
        -- intros ? [= <-]. repeat split; [exact Hne|].
           intros reachable'. apply consume_nothing. right.
           rewrite lookup_delete_eq. reflexivity.
    + exists None, ss. split; [|split; [reflexivity | discriminate]].
      apply consume_nothing. right. rewrite Hl. reflexivity.
  - exists None, ss. split; [|split; [reflexivity | discriminate]].
    apply consume_nothing. left. reflexivity.
Qed.

(** X16. A quick jump from a route that is not the guide scrolls nowhere
    yet: it sets the hash to the guide and puts the id aside. When the guide
    is then rendered, the id is taken out and the section is scrolled to,
    if the document has it; rendering the guide again scrolls no more. *)
Theorem quick_jump_from_another_route b id :
  location_hash b <> "" ->
  starts_with (location_hash b) "#/guide" = false ->
  location_hash b <> "#/" -> location_hash b <> "#" ->
  session_reachable b = true -> id <> "" ->
  exists b1 b2,
    goToGuideAndScroll b id = Returned b1 /\
    location_hash b1 = "#/guide" /\ scrolled_to b1 = scrolled_to b /\
    session b1 !! pendingScrollIdKey = Some id /\
    renderGuide_pending b1 = Returned b2 /\
    scrolled_to b2 = (if Array_includes (element_ids b) id
                      then (scrolled_to b ++ [id])%list else scrolled_to b) /\
    session b2 !! pendingScrollIdKey = None /\
    renderGuide_pending b2 = Returned b2.
Proof.
  intros Hne Hguide Hslash Hhash Hreach Hid.
  unfold goToGuideAndScroll.
  destruct (String.eqb_spec (location_hash b) "") as [? | _]; [contradiction|].
  rewrite Hguide.
  destruct (String.eqb_spec (location_hash b) "#/") as [? | _]; [contradiction|].
  destruct (String.eqb_spec (location_hash b) "#") as [? | _]; [contradiction|].
  simpl. rewrite Hreach. simpl.
  destruct (Array_includes (element_ids b) id) eqn:Hin;
    (eexists _, _; split; [reflexivity|]; simpl;
     split; [reflexivity|]; split; [reflexivity|];
     split; [apply lookup_insert_eq|];
     unfold renderGuide_pending; simpl;
     rewrite (consume_present _ id); [| apply lookup_insert_eq | exact Hid];
     rewrite bind_Returned; simpl; unfold scrollToId; simpl; rewrite Hin;
     split; [reflexivity|]; simpl; split; [reflexivity|];
     split; [apply lookup_delete_eq|];
     rewrite consume_nothing by (right; rewrite lookup_delete_eq; reflexivity);
     reflexivity).
Qed.

(** X17. A quick jump on the guide route (an empty hash counts as the
    guide) scrolls at once, if the document has the section, and leaves the
    hash and [sessionStorage] as they are. *)
Theorem quick_jump_on_guide b id :
  location_hash b = "" \/ starts_with (location_hash b) "#/guide" = true \/
  location_hash b = "#/" \/ location_hash b = "#" ->
  exists b',
    goToGuideAndScroll b id = Returned b' /\
    location_hash b' = location_hash b /\ session b' = session b /\
    scrolled_to b' = (if Array_includes (element_ids b) id
                      then (scrolled_to b ++ [id])%list else scrolled_to b).
Proof.
  intros Hroute. unfold goToGuideAndScroll.
  assert (Hon : starts_with (if String.eqb (location_hash b) "" then "#/guide"
                             else location_hash b) "#/guide"
                || String.eqb (if String.eqb (location_hash b) "" then "#/guide"
                               else location_hash b) "#/"
                || String.eqb (if String.eqb (location_hash b) "" then "#/guide"
                               else location_hash b) "#" = true).
  { destruct Hroute as [-> | [Hg | [-> | ->]]]; try reflexivity.
    destruct (String.eqb (location_hash b) ""); [reflexivity|].
    rewrite Hg. reflexivity. }
  rewrite Hon. unfold scrollToId.
  destruct (Array_includes (element_ids b) id); eexists; repeat split; reflexivity.
Qed.

End QuickJump.

(** * More on the Troubleshooting page *)

Section Filters.

Local Open Scope string_scope.

Lemma toLowerCase_empty s : String.eqb (toLowerCase s) "" = String.eqb s "".
Proof. destruct s; reflexivity. Qed.

Lemma substring_trans a b c : substring a b -> substring b c -> substring a c.
Proof.
  intros (p & q & ->) (p' & q' & ->). exists (p' +:+ p), (q +:+ q').
  rewrite !string_app_assoc. reflexivity.
Qed.

Lemma substring_of_empty q : substring q "" -> q = "".
Proof.
  intros ([|c before] & behind & E); [|discriminate].
  destruct q; [reflexivity | discriminate].
Qed.

Lemma filter_ext_bool {A} (f g : A -> bool) (l : list A) :
  (forall x, f x = g x) -> List.filter f l = List.filter g l.
Proof.
  intros E. induction l as [|x l IH]; simpl; [reflexivity|].
  rewrite E, IH. reflexivity.
Qed.

Lemma filter_sublist_impl {A} (f g : A -> bool) (l : list A) :
  (forall x, f x = true -> g x = true) ->
  List.filter f l `sublist_of` List.filter g l.
Proof.
  intros Himp. induction l as [|x l IH]; simpl; [constructor|].
  destruct (f x) eqn:Hf.
  - rewrite (Himp x Hf). constructor. exact IH.
  - destruct (g x); [constructor|]; exact IH.
Qed.

Lemma filter_filter_bool {A} (f g : A -> bool) (l : list A) :
  List.filter f (List.filter g l) = List.filter (fun x => g x && f x) l.
Proof.
  induction l as [|x l IH]; simpl; [reflexivity|].
  destruct (g x); simpl; [destruct (f x)|]; rewrite IH; reflexivity.
Qed.

Lemma filter_cons_length {A} (f : A -> bool) (x : A) (l : list A) :
  length (List.filter f (x :: l))
  = ((if f x then 1 else 0) + length (List.filter f l))%nat.
Proof. simpl. destruct (f x); reflexivity. Qed.

Lemma matches_split activeCat query item :
  matches activeCat query item = matches activeCat "" item && matches "all" query item.
Proof.
  unfold matches. simpl.
  destruct (if String.eqb activeCat "all" then true
            else String.eqb (Fix.category item) activeCat); reflexivity.
Qed.

Lemma matches_narrow activeCat q q' item :
  substring (toLowerCase q) (toLowerCase q') ->
  matches activeCat q' item = true -> matches activeCat q item = true.
Proof.
  intros Hlow. unfold matches.
  destruct (if String.eqb activeCat "all" then true
            else String.eqb (Fix.category item) activeCat); simpl; [|auto].
  destruct (String.eqb_spec q "") as [-> | Hq]; [reflexivity|].
  destruct (String.eqb_spec q' "") as [-> | Hq'].
  { apply substring_of_empty in Hlow.
    pose proof (toLowerCase_empty q) as E. rewrite Hlow in E. simpl in E.
    symmetry in E. apply String.eqb_eq in E. contradiction. }
  rewrite !orb_true_iff, !String_includes_spec, !existsb_exists.
  intros [[Ht | Hb] | (l & Hin & Hl%String_includes_spec)].
  - left. left. eapply substring_trans; eassumption.
  - left. right. eapply substring_trans; eassumption.
  - right. exists l. split; [exact Hin|]. apply String_includes_spec.
    eapply substring_trans; eassumption.
Qed.

(** X18. The search does not see the case of the query: two queries that
    are the same once in lower case show the same records. *)
Theorem renderItems_query_case records activeCat q q' :
  toLowerCase q = toLowerCase q' ->
  renderItems records activeCat q = renderItems records activeCat q'.
Proof.
  intros E. apply filter_ext_bool. intros item. unfold matches.
  rewrite <- (toLowerCase_empty q), <- (toLowerCase_empty q'), E. reflexivity.
Qed.

(** X19. A longer query narrows the list: when the lower-case form of the
    query [q] occurs in the lower-case form of the query [q'], what [q']
    shows is a sublist of what [q] shows. *)
Theorem renderItems_narrows records activeCat q q' :
  substring (toLowerCase q) (toLowerCase q') ->
  renderItems records activeCat q' `sublist_of` renderItems records activeCat q.
Proof.
  intros Hsub. apply filter_sublist_impl. intros item. apply matches_narrow. exact Hsub.
Qed.

(** X20. The chip and the search box work apart: filtering by both is
    searching in all categories and then picking the category, and it is
    picking the category and then searching. *)
Theorem renderItems_composes records activeCat query :
  renderItems records activeCat query
  = renderItems (renderItems records "all" query) activeCat ""
  /\ renderItems records activeCat query
     = renderItems (renderItems records activeCat "") "all" query.
Proof.
  unfold renderItems. rewrite !filter_filter_bool. split; apply filter_ext_bool; intros item.
  - rewrite (matches_split activeCat query item). apply andb_comm.
  - apply matches_split.
Qed.

Lemma category_of_chip labels :
  category_of labels = "windows" \/ category_of labels = "macos" \/
  category_of labels = "macro" \/ category_of labels = "pro".
Proof.
  unfold category_of.
  destruct (Array_includes labels "windows"); [auto|].
  destruct (Array_includes labels "macos" || Array_includes labels "mac"); [auto|].
  destruct (Array_includes labels "pro"); [auto 6|].
  destruct (Array_includes labels "macro"); auto.
Qed.

(** X21. Every record has the category of one of the four chips, so the
    chips split the list: the records shown under Windows, macOS, Macro and
    Pro, with an empty query, are as many as the records shown under All. *)
Theorem chips_partition issues :
  Forall (fun item => In (Fix.category item) chips) (normalized issues)
  /\ length (renderItems (normalized issues) "all" "")
     = (length (renderItems (normalized issues) "windows" "")
        + length (renderItems (normalized issues) "macos" "")
        + length (renderItems (normalized issues) "macro" "")
        + length (renderItems (normalized issues) "pro" ""))%nat.
Proof.
  assert (Hall : Forall (fun item => In (Fix.category item) chips) (normalized issues)).
  { apply Forall_forall. intros item Hin%list_elem_of_In.
    unfold normalized in Hin. apply in_map_iff in Hin as (i & <- & _).
    simpl. destruct (category_of_chip
                       (map (fun l => toLowerCase (or_empty (Label.name l)))
                            (default [] (Issue.labels i))))
      as [-> | [-> | [-> | ->]]]; simpl; auto. }
  split; [exact Hall|].
  induction Hall as [|item rest Hc _ IH]; [reflexivity|].
  unfold renderItems in *. rewrite !filter_cons_length, IH.
  generalize (length (List.filter (matches "windows" "") rest))
             (length (List.filter (matches "macos" "") rest))
             (length (List.filter (matches "macro" "") rest))
             (length (List.filter (matches "pro" "") rest)).
  intros n1 n2 n3 n4. unfold matches.
  destruct Hc as [<- | [<- | [<- | [<- | []]]]]; simpl; lia.
Qed.

(** X22. A label is found whatever its case: an issue that is not a pull
    request and has a label whose name, in lower case, has the lower-case
    query in it is shown under All. *)
Theorem label_search_ignores_case issues i labels name query :
  In i issues -> truthy (Issue.pull_request i) = false ->
  Issue.labels i = Some labels -> In {| Label.name := Some name |} labels ->
  substring (toLowerCase query) (toLowerCase name) ->
  In (normalize i) (renderItems (normalized issues) "all" query).
Proof.
  intros Hi Hpr Hlabels Hl Hsub. unfold renderItems, normalized.
  apply filter_In. split.
  - apply in_map. apply filter_In. split; [exact Hi|]. rewrite Hpr. reflexivity.
  - unfold matches. simpl.
    destruct (String.eqb query ""); [reflexivity|].
    rewrite !orb_true_iff. right. apply existsb_exists.
    exists (toLowerCase name). split.
    + rewrite Hlabels. simpl.
      change (toLowerCase name)
        with ((fun l => toLowerCase (or_empty (Label.name l))) {| Label.name := Some name |}).
      apply in_map. exact Hl.
    + apply String_includes_spec. exact Hsub.
Qed.

(** X23. The pill of a record spells its category: in lower case it is the
    category. *)
Theorem pillForCat_spells_category labels :
  toLowerCase (pillForCat (category_of labels)) = category_of labels.
Proof.
  destruct (category_of_chip labels) as [-> | [-> | [-> | ->]]]; reflexivity.
Qed.

Lemma quickJump_spec sections :
  length (quickJump sections) = Nat.min 6 (length sections)
  /\ forall k button,
       quickJump sections !! k = Some button ->
       (k < 6)%nat /\ JumpButton.index button = S k /\
       exists s, sections !! k = Some s /\
         JumpButton.jump_id button = escapeHtml (GuideSection.id s) /\
         JumpButton.text button
         = escapeHtml (match GuideSection.titleEn s with
                       | Some title => if String.eqb title "" then GuideSection.id s else title
                       | None => GuideSection.id s
                       end).
Proof.
  unfold quickJump. split.
  - rewrite length_imap, length_take. reflexivity.
  - intros k button (s & Hs & ->)%list_lookup_imap_Some.
    apply lookup_take_Some in Hs as [Hs Hk].
    split; [exact Hk|]. split; [simpl; lia|].
    exists s. split; [exact Hs|]. split; [reflexivity|]. simpl.
    destruct (GuideSection.titleEn s) as [title|]; [|reflexivity].
    simpl. destruct (String.eqb title ""); reflexivity.
Qed.

(** X24. Without an element [drawerGuideNav] in the document,
    [renderDrawerGuideNav] builds nothing. With it, the drawer gets at most
    six quick-jump buttons, one for each of the first six sections in their
    order, numbered from one and named by the English title or, without
    one, by the id; the Top button comes after them. *)
Theorem renderDrawerGuideNav_buttons element_ids sections :
  (Array_includes element_ids "drawerGuideNav" = false ->
   renderDrawerGuideNav element_ids sections = None)
  /\ (Array_includes element_ids "drawerGuideNav" = true ->
      exists buttons,
        renderDrawerGuideNav element_ids sections
        = Some (map JumpTo buttons ++ [JumpTop])%list /\
        length buttons = Nat.min 6 (length sections) /\
        forall k button,
          buttons !! k = Some button ->
          (k < 6)%nat /\ JumpButton.index button = S k /\
          exists s, sections !! k = Some s /\
            JumpButton.jump_id button = escapeHtml (GuideSection.id s) /\
            JumpButton.text button
            = escapeHtml (match GuideSection.titleEn s with
                          | Some title =>
                              if String.eqb title "" then GuideSection.id s else title
                          | None => GuideSection.id s
                          end)).
Proof.
  unfold renderDrawerGuideNav. split; intros ->; [reflexivity|].
  exists (quickJump sections). split; [reflexivity|]. apply quickJump_spec.
Qed.

End Filters.

(** * The further properties at work on sample data *)

Section MoreSamples.

Local Open Scope string_scope.

Lemma escapeHtml_injective_witness : "a<b & c" = "a<b & c".
Proof. apply (escapeHtml_injective "a<b & c" "a<b & c"). reflexivity. Defined.

Lemma escapeHtml_fixpoint_witness : escapeHtml "Quick jump" = "Quick jump".
Proof. apply (proj2 (escapeHtml_fixpoint "Quick jump")). repeat constructor. Defined.

Lemma getTroubleshootingIssuesUrl_injective_witness :
  "approved,windows" = "approved,windows".
Proof.
  apply (getTroubleshootingIssuesUrl_injective "RevolutionGuides" "revolutionmacroguide"
           "approved,windows" "approved,windows").
  reflexivity.
Defined.

Lemma fetchJson_frame_witness :
  cache (after first_reply) !! issues_url = cache first_visit !! issues_url /\
  storage (after first_reply) !! lsKey issues_url = storage first_visit !! lsKey issues_url.
Proof.
  destruct (fetchJson_frame (H := plain_host) first_visit
              (at_time 1000 (Responded 200 (Some releases_doc)))
              releases_url true first_reply
              ltac:(vm_compute; reflexivity)) as (Hmem & Hls & _).
  split.
  - apply Hmem; [discriminate|]. intros E. vm_compute in E. discriminate E.
  - apply Hls. intros E. vm_compute in E. discriminate E.
Defined.

Lemma fetchJson_failure_keeps_state_witness :
  after releases_fallback = new_GitHubAPI (stored_releases 1000) /\
  (value releases_fallback = null \/
   exists local, true = true /\
     readLocalCache (at_time 700000 Rejected)
       (storage (new_GitHubAPI (stored_releases 1000))) releases_url = Returned local /\
     value releases_fallback = data_of local /\ truthy (data_of local) = true).
Proof.
  apply (fetchJson_failure_keeps_state (H := plain_host)
           (new_GitHubAPI (stored_releases 1000)) (at_time 700000 Rejected)
           releases_url true releases_fallback).
  - reflexivity.
  - vm_compute. reflexivity.
  - reflexivity.
Defined.

Lemma run_within_ttl_witness :
  run (H := plain_host) (after first_reply)
    [releases_call (at_time 2000 Rejected); releases_call (at_time 3000 Rejected)]
  = Returned (map (fun _ => {| value := Some releases_doc; after := after first_reply;
                               requests := [] |})
                  [releases_call (at_time 2000 Rejected);
                   releases_call (at_time 3000 Rejected)]).
Proof.
  apply (run_within_ttl (H := plain_host) (after first_reply) releases_url releases_doc 1000).
  - vm_compute. reflexivity.
  - repeat constructor.
Defined.

Lemma writeLocalCache_readLocalCache_witness :
  exists ls',
    writeLocalCache (at_time 1000 Rejected) (stored_releases 5) releases_url releases_doc
    = Returned ls' /\
    readLocalCache (at_time 2000 Rejected) ls' releases_url
    = Returned (payload releases_doc 1000).
Proof.
  destruct (writeLocalCache_readLocalCache (at_time 1000 Rejected) (at_time 2000 Rejected)
              (stored_releases 5) releases_url releases_doc)
    as (ls' & Hw & Hread & _).
  exists ls'. split; [exact Hw|]. apply Hread; reflexivity.
Defined.

Lemma releases_and_issues_apart_witness :
  cache (after issues_down) !! releases_url = cache first_visit !! releases_url /\
  storage (after issues_down) !! lsKey releases_url
  = storage first_visit !! lsKey releases_url.
Proof.
  apply (proj1 (releases_and_issues_apart (H := plain_host) first_visit
                  (at_time 1000 Rejected) "approved,windows") issues_down).
  vm_compute. reflexivity.
Defined.


Lemma pending_scroll_consumed_once_witness :
  exists ss',
    consumePendingScrollId true (<[pendingScrollIdKey := "install"]> empty_session)
    = Returned (Some "install", ss') /\
    consumePendingScrollId true ss' = Returned (None, ss').
Proof.
  destruct (pending_scroll_consumed_once true
              (<[pendingScrollIdKey := "install"]> empty_session))
    as (id & ss' & Hc & _ & Honce).
  assert (Hid : id = Some "install").
  { rewrite (consume_present _ "install") in Hc;
      [congruence | apply lookup_insert_eq | discriminate]. }
  exists ss'. split; [rewrite Hc, Hid; reflexivity|].
  apply (Honce "install" Hid).
Defined.

Lemma quick_jump_from_another_route_witness :
  exists b1 b2,
    goToGuideAndScroll changelog_tab "faq" = Returned b1 /\
    location_hash b1 = "#/guide" /\ scrolled_to b1 = scrolled_to changelog_tab /\
    session b1 !! pendingScrollIdKey = Some "faq" /\
    renderGuide_pending b1 = Returned b2 /\
    scrolled_to b2 = (if Array_includes (element_ids changelog_tab) "faq"
                      then (scrolled_to changelog_tab ++ ["faq"])%list
                      else scrolled_to changelog_tab) /\
    session b2 !! pendingScrollIdKey = None /\
    renderGuide_pending b2 = Returned b2.
Proof.
  apply (quick_jump_from_another_route changelog_tab "faq");
    (reflexivity || discriminate).
Defined.

Lemma quick_jump_on_guide_witness :
  exists b',
    goToGuideAndScroll guide_tab "faq" = Returned b' /\
    location_hash b' = location_hash guide_tab /\ session b' = session guide_tab /\
    scrolled_to b' = (if Array_includes (element_ids guide_tab) "faq"
                      then (scrolled_to guide_tab ++ ["faq"])%list
                      else scrolled_to guide_tab).
Proof.
  apply (quick_jump_on_guide guide_tab "faq"). right. left. reflexivity.
Defined.

Lemma renderItems_query_case_witness :
  renderItems sample_records "all" "MIC" = renderItems sample_records "all" "mic".
Proof. apply (renderItems_query_case sample_records "all" "MIC" "mic"). reflexivity. Defined.

Lemma renderItems_narrows_witness :
  renderItems sample_records "all" "Mic not" `sublist_of` renderItems sample_records "all" "MIC".
Proof.
  apply (renderItems_narrows sample_records "all" "MIC" "Mic not").
  exists "", " not". reflexivity.
Defined.

Lemma label_search_ignores_case_witness :
  In (normalize crash_on_login)
     (renderItems (normalized [crash_on_login; mic_not_detected]) "all" "WINDOWS").
Proof.
  apply (label_search_ignores_case [crash_on_login; mic_not_detected] crash_on_login
           [ {| Label.name := Some "windows" |}; {| Label.name := Some "approved" |} ]
           "windows" "WINDOWS").
  - left. reflexivity.
  - reflexivity.
  - reflexivity.
  - left. reflexivity.
  - exists "", "". reflexivity.
Defined.

Lemma renderDrawerGuideNav_buttons_witness :
  renderDrawerGuideNav ["install"; "faq"] guide_sections = None
  /\ exists buttons,
       renderDrawerGuideNav ["drawerGuideNav"; "install"; "faq"] guide_sections
       = Some (map JumpTo buttons ++ [JumpTop])%list /\
       length buttons = Nat.min 6 (length guide_sections) /\
       buttons !! 1%nat = Some faq_button.
Proof.
  split.
  - apply (proj1 (renderDrawerGuideNav_buttons ["install"; "faq"] guide_sections)).
    reflexivity.
  - destruct (proj2 (renderDrawerGuideNav_buttons ["drawerGuideNav"; "install"; "faq"]
                       guide_sections) eq_refl) as (buttons & Hb & Hlen & _).
    exists buttons. split; [exact Hb|]. split; [exact Hlen|].
    vm_compute in Hb. injection Hb as Hb.
    destruct buttons as [|b0 [|b1 [|b2 rest]]]; try discriminate Hb.
    injection Hb as _ <-. reflexivity.
Defined.

End MoreSamples.
